(** * Browser selection for the BrowserStack runner ([src/start.js])

    A shallow embedding of the catalogue filter, the version-spec parser,
    the matcher and the aggregator of [start.js], followed by the
    properties of the design document that were checked against it.

    The embedding keeps the shape of the JavaScript:
    - a field of a record parsed from JSON is a [value]: absent
      ([undefined]), [null], or a string; a string is kept as its bytes in
      UTF-8, which is enough for what the code does with it (equality,
      commas, underscores, ASCII digits and the literal "last ");
    - arrays and the target map live in a store ([world]) and are passed
      around by reference, because [Array.prototype.sort] works in place
      and [addBrowsers] mutates the map it is handed; the catalogue
      records themselves are plain values, since [start.js] never assigns
      to a field of one (its only assignment is [browserMap[id] = browser]);
    - [console.error], [console.warn] and [process.exit] are effects of a
      small monad [M] over that store. *)

From Stdlib Require Import ZArith String Ascii List Lia Permutation Sorted.
From stdpp Require Import base list gmap strings.

Open Scope Z_scope.

(** ** JavaScript values *)

(** The fields read by [start.js] come out of [JSON.parse]: strings, [null],
    or nothing at all (an absent property reads as [undefined]). *)
Inductive value : Type :=
| undefined
| null
| str (s : string).

#[global] Instance value_eq_dec : EqDecision value.
Proof. solve_decision. Defined.

(** [a == b] (the file switches [eqeqeq] off): [null] and [undefined] are
    equal to each other and to nothing else; strings compare by content. *)
Definition loose_eq (a b : value) : bool :=
  match a, b with
  | str s, str t => String.eqb s t
  | str _, _ | _, str _ => false
  | _, _ => true
  end.

(** SameValueZero, the comparison of [Array.prototype.includes]. *)
Definition same_value_zero (a b : value) : bool :=
  match a, b with
  | undefined, undefined => true
  | null, null => true
  | str s, str t => String.eqb s t
  | _, _ => false
  end.

(** ToBoolean: [undefined], [null] and the empty string are falsy. *)
Definition truthy (v : value) : bool :=
  match v with
  | undefined | null => false
  | str s => negb (String.eqb s "")
  end.

Definition ToString (v : value) : string :=
  match v with
  | undefined => "undefined"
  | null => "null"
  | str s => s
  end.

(** ** Strings *)

Definition is_digit (c : ascii) : bool :=
  (48 <=? nat_of_ascii c)%nat && (nat_of_ascii c <=? 57)%nat.

(** The longest run of decimal digits at the front of [s], and what follows
    it: the greedy [\d*]. *)
Fixpoint take_digits (s : string) : string * string :=
  match s with
  | String c s' =>
      if is_digit c
      then let (ds, rest) := take_digits s' in (String c ds, rest)
      else (EmptyString, s)
  | EmptyString => (EmptyString, EmptyString)
  end.

Fixpoint skip_literal (p s : string) : option string :=
  match p, s with
  | EmptyString, _ => Some s
  | String a p', String b s' =>
      if Ascii.eqb a b then skip_literal p' s' else None
  | String _ _, EmptyString => None
  end.

(** [/^\d+(\.\d+)?$/.exec(s)] as a truth value. *)
Definition exec_stable_version (s : string) : bool :=
  match take_digits s with
  | (EmptyString, _) => false
  | (_, EmptyString) => true
  | (_, String c rest) =>
      Ascii.eqb c "." &&
      match take_digits rest with
      | (String _ _, EmptyString) => true
      | _ => false
      end
  end.

(** [/last (\d+)/] tried at the start of [s] only: the first capture group
    if it matches there. *)
Definition match_last_here (s : string) : option string :=
  match skip_literal "last " s with
  | Some rest =>
      match take_digits rest with
      | (String c ds, _) => Some (String c ds)
      | (EmptyString, _) => None
      end
  | None => None
  end.

(** [/last (\d+)/.exec(s)]: the pattern is tried at every position from the
    left; the result is the first capture group of the first match, [None]
    where [exec] returns [null]. *)
Fixpoint exec_last (s : string) : option string :=
  match match_last_here s with
  | Some res1 => Some res1
  | None =>
      match s with
      | String _ s' => exec_last s'
      | EmptyString => None
      end
  end.

(** [s.split(',')]. *)
Fixpoint split_comma (s : string) : list string :=
  match s with
  | EmptyString => [EmptyString]
  | String c s' =>
      if Ascii.eqb c ","
      then EmptyString :: split_comma s'
      else match split_comma s' with
           | piece :: pieces => String c piece :: pieces
           | [] => [String c EmptyString]
           end
  end.

(** [xs.join(sep)] on strings. *)
Fixpoint join (sep : string) (xs : list string) : string :=
  match xs with
  | [] => EmptyString
  | [x] => x
  | x :: xs' => x +:+ sep +:+ join sep xs'
  end.

(** What [Array.prototype.join] prints for one element: nothing for
    [undefined] and [null]. *)
Definition join_element (v : value) : string :=
  match v with
  | undefined | null => EmptyString
  | str s => s
  end.

Fixpoint digits_value (acc : Z) (ds : string) : Z :=
  match ds with
  | EmptyString => acc
  | String c ds' => digits_value (10 * acc + (Z.of_nat (nat_of_ascii c) - 48)) ds'
  end.

(** ** Numbers *)

(** An IEEE 754 binary64 value.  Every finite double is an integer multiple
    of [2^-1074]; [finite z] stands for [z * 2^-1074].  The two zeros are
    not told apart: nothing in [start.js] looks at the sign of a zero. *)
Inductive number : Type :=
| NaN
| infinite (negative : bool)
| finite (z : Z).

(** Round the non-negative rational [num / den], counted in units of
    [2^-1074], to the nearest double, ties to even; then attach the sign. *)
Definition round64 (negative : bool) (num den : Z) : number :=
  let q0 := num / den in
  let d := if q0 <? 2 ^ 53 then 0 else Z.log2 q0 - 52 in
  let ulp := den * 2 ^ d in
  let q := num / ulp in
  let r := num mod ulp in
  let q' := if (ulp <? 2 * r) || ((ulp =? 2 * r) && Z.odd q) then q + 1 else q in
  let v := q' * 2 ^ d in
  if 2 ^ 2098 <=? v then infinite negative
  else finite (if negative then - v else v).

(** [x - y]. *)
Definition number_sub (x y : number) : number :=
  match x, y with
  | NaN, _ | _, NaN => NaN
  | infinite a, infinite b => if Bool.eqb a b then NaN else infinite a
  | infinite a, finite _ => infinite a
  | finite _, infinite b => infinite (negb b)
  | finite a, finite b => round64 (a - b <? 0) (Z.abs (a - b)) 1
  end.

Definition is_positive (x : number) : bool :=
  match x with
  | NaN => false
  | infinite negative => negb negative
  | finite z => 0 <? z
  end.

Definition is_white_space (c : ascii) : bool :=
  let n := nat_of_ascii c in
  ((9 <=? n)%nat && (n <=? 13)%nat) || (n =? 32)%nat.

Fixpoint skip_white_space (s : string) : string :=
  match s with
  | String c s' => if is_white_space c then skip_white_space s' else s
  | EmptyString => EmptyString
  end.

(** The sign of a StrDecimalLiteral or of an exponent. *)
Definition take_sign (s : string) : bool * string :=
  match s with
  | String c s' =>
      if Ascii.eqb c "-" then (true, s')
      else if Ascii.eqb c "+" then (false, s')
      else (false, s)
  | EmptyString => (false, s)
  end.

(** The ExponentPart after the mantissa, [0] when there is none. *)
Definition take_exponent (s : string) : Z :=
  match s with
  | String c s' =>
      if Ascii.eqb c "e" || Ascii.eqb c "E"
      then let (negative, s'') := take_sign s' in
           match take_digits s'' with
           | (EmptyString, _) => 0
           | (ds, _) => if negative then - digits_value 0 ds else digits_value 0 ds
           end
      else 0
  | EmptyString => 0
  end.

(** [parseFloat(v)]: ToString, skip leading white space, read the longest
    prefix that is a StrDecimalLiteral, round its value to a double.  The
    white space recognised here is the ASCII part of the ECMAScript set. *)
Definition parseFloat (v : value) : number :=
  let (negative, s) := take_sign (skip_white_space (ToString v)) in
  match skip_literal "Infinity" s with
  | Some _ => infinite negative
  | None =>
      let (int, s1) := take_digits s in
      let (frac, s2) :=
        match s1 with
        | String c s1' => if Ascii.eqb c "." then take_digits s1' else (EmptyString, s1)
        | EmptyString => (EmptyString, s1)
        end in
      match int +:+ frac with
      | EmptyString => NaN
      | mantissa =>
          let e := take_exponent s2 - Z.of_nat (String.length frac) in
          let m := digits_value 0 mantissa * 2 ^ 1074 in
          if 0 <=? e then round64 negative (m * 10 ^ e) 1
          else round64 negative m (10 ^ (- e))
      end
  end.

(** ** The records of [start.js] *)

(** [Browser]: one entry of the BrowserStack catalogue. *)
Module Browser.
Record t : Type := mk {
  os : value;
  os_version : value;
  browser : value;
  browser_version : value;
  device : value
}.
End Browser.

(** One element of the [browsers] list of a grouped spec in
    [browsers.json]. *)
Module BrowserEntry.
Record t : Type := mk {
  browser : value;
  browser_version : value
}.
End BrowserEntry.

Module GroupedBrowserSpec.
Record t : Type := mk {
  device : value;
  os : value;
  os_version : value;
  browsers : list BrowserEntry.t
}.
End GroupedBrowserSpec.

(** The object built by [parseBrowserVersion]: its [type] tag with the
    [value] that goes with it. *)
Inductive VersionConstraint : Type :=
| type_last (value : string)
| type_list (value : list string)
| type_no_version.

(** [BrowserSpec]: the flattened spec built inside [getTargetBrowsers]. *)
Module BrowserSpec.
Record t : Type := mk {
  device : value;
  os : value;
  os_version : value;
  browser : value;
  browser_version : VersionConstraint
}.
End BrowserSpec.

#[global] Instance Browser_eq_dec : EqDecision Browser.t.
Proof. solve_decision. Defined.

#[global] Instance VersionConstraint_eq_dec : EqDecision VersionConstraint.
Proof. solve_decision. Defined.

#[global] Instance BrowserSpec_eq_dec : EqDecision BrowserSpec.t.
Proof. solve_decision. Defined.

(** ** The store *)

Definition loc : Type := positive.

(** A plain object used as a map, as [targetBrowsers = {}] is.  [own] lists
    its own properties in creation order.  [proto] is [None] while the
    prototype is still [Object.prototype], and [Some b] once the
    [__proto__] setter has put the record [b] in between. *)
Record object : Type := mkObject {
  own : list (string * Browser.t);
  proto : option Browser.t
}.

(** What is written to the console: a fixed text, or
    [JSON.stringify(spec, null, '\t')]. *)
Inductive message : Type :=
| text (s : string)
| JSON_stringify (spec : BrowserSpec.t).

Inductive event : Type :=
| console_error (m : message)
| console_warn (m : message).

Record world : Type := mkWorld {
  arrays : gmap loc (list Browser.t);
  objects : gmap loc object;
  console : list event
}.

(** How a computation ends: with a value, by [process.exit(status)], or
    [Fault] on a reference that is not in the store (no JavaScript
    program holds one; the theorems show it does not arise). *)
Inductive outcome (A : Type) : Type :=
| Returned (a : A)
| Exited (status : Z)
| Fault.

Arguments Returned {A} a.
Arguments Exited {A} status.
Arguments Fault {A}.

Definition M (A : Type) : Type := world -> outcome A * world.

#[global] Instance M_ret : MRet M := fun A a w => (Returned a, w).

#[global] Instance M_bind : MBind M := fun A B k m w =>
  match m w with
  | (Returned a, w') => k a w'
  | (Exited status, w') => (Exited status, w')
  | (Fault, w') => (Fault, w')
  end.

Definition process_exit {A : Type} (status : Z) : M A :=
  fun w => (Exited status, w).

Definition emit (e : event) : M unit :=
  fun w => (Returned tt, mkWorld (arrays w) (objects w) (console w ++ [e])).

Definition read_array (arr : loc) : M (list Browser.t) :=
  fun w => match arrays w !! arr with
           | Some l => (Returned l, w)
           | None => (Fault, w)
           end.

Definition write_array (arr : loc) (l : list Browser.t) : M unit :=
  fun w => (Returned tt, mkWorld (<[arr := l]> (arrays w)) (objects w) (console w)).

Definition new_array (l : list Browser.t) : M loc :=
  fun w => let arr := fresh (dom (arrays w)) in
           (Returned arr, mkWorld (<[arr := l]> (arrays w)) (objects w) (console w)).

Definition read_object (o : loc) : M object :=
  fun w => match objects w !! o with
           | Some obj => (Returned obj, w)
           | None => (Fault, w)
           end.

Definition write_object (o : loc) (obj : object) : M unit :=
  fun w => (Returned tt, mkWorld (arrays w) (<[o := obj]> (objects w)) (console w)).

(** [{}]. *)
Definition new_object : M loc :=
  fun w => let o := fresh (dom (objects w)) in
           (Returned o, mkWorld (arrays w) (<[o := mkObject [] None]> (objects w)) (console w)).

(** [xs.forEach(f)] over a list that [f] does not change. *)
Fixpoint forEach {A : Type} (xs : list A) (f : A -> M unit) : M unit :=
  match xs with
  | [] => mret tt
  | x :: xs' => f x ;; forEach xs' f
  end.

(** *** Arrays *)

(** [arr.filter(f)]: a new array. *)
Definition Array_filter (arr : loc) (f : Browser.t -> bool) : M loc :=
  l ← read_array arr; new_array (List.filter f l).

Definition Array_length (arr : loc) : M Z :=
  l ← read_array arr; mret (Z.of_nat (length l)).

(** [arr.slice(start, end)]: a new array. *)
Definition slice_list {A : Type} (start end_ : Z) (l : list A) : list A :=
  let len := Z.of_nat (length l) in
  let k := if start <? 0 then Z.max (len + start) 0 else Z.min start len in
  let final := if end_ <? 0 then Z.max (len + end_) 0 else Z.min end_ len in
  take (Z.to_nat (Z.max (final - k) 0)) (drop (Z.to_nat k) l).

Definition Array_slice (arr : loc) (start end_ : Z) : M loc :=
  l ← read_array arr; new_array (slice_list start end_ l).

(** [arr.sort(comparefn)], in place.  The sort is the stable one that
    ECMAScript 2019 asks for, written as an insertion sort; a comparator
    result of [NaN] counts as [+0].  Where [comparefn] is not a consistent
    comparator the standard leaves the order to the implementation, and
    this is one of the orders allowed. *)
Fixpoint sort_insert {A : Type} (comparefn : A -> A -> number) (x : A) (l : list A) : list A :=
  match l with
  | [] => [x]
  | y :: l' =>
      if is_positive (comparefn x y)
      then y :: sort_insert comparefn x l'
      else x :: y :: l'
  end.

Definition sort_list {A : Type} (comparefn : A -> A -> number) (l : list A) : list A :=
  foldr (sort_insert comparefn) [] l.

Definition Array_sort (arr : loc) (comparefn : Browser.t -> Browser.t -> number) : M unit :=
  l ← read_array arr; write_array arr (sort_list comparefn l).

Definition Array_forEach (arr : loc) (f : Browser.t -> M unit) : M unit :=
  l ← read_array arr; forEach l f.

(** [versions.includes(v)] on an array of strings. *)
Definition includes (versions : list string) (v : value) : bool :=
  existsb (fun s => same_value_zero (str s) v) versions.

(** *** Objects *)

(** The own property names of [Object.prototype]. *)
Definition Object_prototype_keys : list string :=
  [ "constructor"; "__defineGetter__"; "__defineSetter__"; "hasOwnProperty";
    "__lookupGetter__"; "__lookupSetter__"; "isPrototypeOf";
    "propertyIsEnumerable"; "toString"; "valueOf"; "__proto__";
    "toLocaleString" ]%string.

(** The own property names of a catalogue record. *)
Definition Browser_keys (b : Browser.t) : list string :=
  let present (name : string) (v : value) :=
    match v with undefined => [] | _ => [name] end in
  present "os"%string (Browser.os b) ++
  present "os_version"%string (Browser.os_version b) ++
  present "browser"%string (Browser.browser b) ++
  present "browser_version"%string (Browser.browser_version b) ++
  present "device"%string (Browser.device b).

Definition mem (k : string) (ks : list string) : bool :=
  existsb (String.eqb k) ks.

(** [k in obj]: own properties first, then the prototype chain. *)
Definition has_property (obj : object) (k : string) : bool :=
  mem k (map fst (own obj)) ||
  match proto obj with
  | Some b => mem k (Browser_keys b)
  | None => false
  end ||
  mem k Object_prototype_keys.

Fixpoint replace_own (k : string) (v : Browser.t) (props : list (string * Browser.t))
  : list (string * Browser.t) :=
  match props with
  | [] => []
  | (k', v') :: props' =>
      if String.eqb k k' then (k', v) :: props'
      else (k', v') :: replace_own k v props'
  end.

(** [obj[k] = v] for a record [v].  An own property is overwritten where
    it stands.  Otherwise the assignment walks the prototype chain: it
    finds the [__proto__] accessor of [Object.prototype], whose setter
    makes [v] the prototype of [obj] and adds no property; every other
    inherited property is a writable data property, so a new own property
    is appended. *)
Definition set_property (obj : object) (k : string) (v : Browser.t) : object :=
  if mem k (map fst (own obj)) then mkObject (replace_own k v (own obj)) (proto obj)
  else if String.eqb k "__proto__" then mkObject (own obj) (Some v)
  else mkObject (own obj ++ [(k, v)]) (proto obj).

(** [Object.values(obj)]: the values of the own properties.  Creation
    order is the order of the standard for names that are not array
    indices; every name written by [addBrowsers] contains an underscore. *)
Definition Object_values (o : loc) : M loc :=
  obj ← read_object o; new_array (map snd (own obj)).

(** ** The program *)

(** [loadAvailableBrowsers], after [browserstack.getBrowsers()] has
    resolved to the array [browsers]. *)
Definition loadAvailableBrowsers (browsers : loc) : M loc :=
  Array_filter browsers (fun browser =>
    negb (truthy (Browser.browser_version browser)) ||
    (truthy (Browser.browser_version browser) &&
     exec_stable_version (ToString (Browser.browser_version browser)))).

Definition parseBrowserVersion (version : value) : VersionConstraint :=
  if truthy version then
    match exec_last (ToString version) with
    | Some res1 => type_last res1
    | None => type_list (split_comma (ToString version))
    end
  else type_no_version.

(** ToNumber of the digits captured by [/last (\d+)/].  The code compares
    it with an array length and hands it to [slice]; an array length is
    below [2^32], where the double and the exact integer decide both the
    same way, so the exact integer is kept. *)
Definition ToNumber_digits (ds : string) : Z := digits_value 0 ds.

Definition getBrowsersThatMatchSpec (availableBrowsers : loc) (spec : BrowserSpec.t) : M loc :=
  browsers ← Array_filter availableBrowsers (fun browser =>
    loose_eq (BrowserSpec.device spec) (Browser.device browser) &&
    loose_eq (BrowserSpec.os spec) (Browser.os browser) &&
    loose_eq (BrowserSpec.os_version spec) (Browser.os_version browser) &&
    loose_eq (BrowserSpec.browser spec) (Browser.browser browser));
  browsers ←
    match BrowserSpec.browser_version spec with
    | type_list versions =>
        Array_filter browsers (fun browser => includes versions (Browser.browser_version browser))
    | type_last value =>
        Array_sort browsers (fun a b =>
          number_sub (parseFloat (Browser.browser_version b))
                     (parseFloat (Browser.browser_version a)));;
        len ← Array_length browsers;
        (if len <? ToNumber_digits value then
           emit (console_error (text "Not enough versions available for the following spec:"));;
           emit (console_error (JSON_stringify spec));;
           emit (console_error (text "Exiting..."));;
           process_exit 1
         else mret tt);;
        Array_slice browsers 0 (ToNumber_digits value)
    | type_no_version => mret browsers
    end;
  len ← Array_length browsers;
  (if len =? 0 then
     emit (console_error (text "No browsers available for the following spec:"));;
     emit (console_error (JSON_stringify spec));;
     emit (console_error (text "Exiting..."));;
     process_exit 1
   else mret tt);;
  mret browsers.

Definition getBrowserId (browser : Browser.t) : string :=
  join "_" (map join_element
    [Browser.os browser; Browser.os_version browser; Browser.browser browser;
     Browser.browser_version browser; Browser.device browser]).

Definition addBrowsers (browserMap : loc) (browsers : loc) : M unit :=
  Array_forEach browsers (fun browser =>
    let id := getBrowserId browser in
    obj ← read_object browserMap;
    (if has_property obj id
     then emit (console_warn (text "duplicate browser"))
     else mret tt);;
    obj ← read_object browserMap;
    write_object browserMap (set_property obj id browser)).

Definition getTargetBrowsers (availableBrowsers : loc) (aggregatedSpecs : list GroupedBrowserSpec.t)
  : M loc :=
  targetBrowsers ← new_object;
  forEach aggregatedSpecs (fun aggregatedSpec =>
    let specs := map (fun spec =>
      BrowserSpec.mk
        (GroupedBrowserSpec.device aggregatedSpec)
        (GroupedBrowserSpec.os aggregatedSpec)
        (GroupedBrowserSpec.os_version aggregatedSpec)
        (BrowserEntry.browser spec)
        (parseBrowserVersion (BrowserEntry.browser_version spec)))
      (GroupedBrowserSpec.browsers aggregatedSpec) in
    forEach specs (fun spec =>
      browsers ← getBrowsersThatMatchSpec availableBrowsers spec;
      addBrowsers targetBrowsers browsers));;
  Object_values targetBrowsers.

(** ** Vocabulary of the design document *)

(** These definitions follow the words of the document; the theorems below
    compare them with the code above. *)

(** "device, os, os_version, and browser name all equal the spec's fields"
    ([==] semantics). *)
Definition same_group (spec : BrowserSpec.t) (browser : Browser.t) : bool :=
  loose_eq (BrowserSpec.device spec) (Browser.device browser) &&
  loose_eq (BrowserSpec.os spec) (Browser.os browser) &&
  loose_eq (BrowserSpec.os_version spec) (Browser.os_version browser) &&
  loose_eq (BrowserSpec.browser spec) (Browser.browser browser).

(** Step 1 of the matching: the candidates of a spec in a catalogue. *)
Definition candidates (catalog : list Browser.t) (spec : BrowserSpec.t) : list Browser.t :=
  List.filter (same_group spec) catalog.

Definition all_digits (s : string) : Prop :=
  forall c, In c (list_ascii_of_string s) -> is_digit c = true.

Definition no_digit_ahead (s : string) : Prop :=
  match s with
  | String c _ => is_digit c = false
  | EmptyString => True
  end.

Definition no_comma (s : string) : Prop :=
  ~ In ","%char (list_ascii_of_string s).

(** "integer": one decimal digit or more. *)
Definition integer_literal (s : string) : Prop :=
  s <> EmptyString /\ all_digits s.

(** "integer, optionally dot-integer", with nothing before or after. *)
Definition stable_version_pattern (s : string) : Prop :=
  integer_literal s \/
  exists a b, s = a +:+ "." +:+ b /\ integer_literal a /\ integer_literal b.

(** A numeric version string. *)
Definition numeric_version (v : value) : Prop :=
  exists s, v = str s /\ stable_version_pattern s.

(** "no explicit version field": the property is missing or [null]. *)
Definition no_version_field (v : value) : Prop :=
  v = undefined \/ v = null.

(** "version string is a member of the set". *)
Definition version_in (versions : list string) (v : value) : Prop :=
  exists s, v = str s /\ In s versions.

(** The literal "last " followed by an integer, found after the prefix
    [pre] of [s]; [ds] is the whole integer (no digit follows it). *)
Definition last_pattern_at (s pre ds : string) : Prop :=
  exists rest,
    s = pre +:+ "last " +:+ ds +:+ rest /\ integer_literal ds /\ no_digit_ahead rest.

Definition matches_last_pattern (s : string) : Prop :=
  exists pre ds, last_pattern_at s pre ds.

(** The order of the numbers that are not [NaN]. *)
Definition number_le (x y : number) : Prop :=
  match x, y with
  | NaN, _ | _, NaN => False
  | infinite true, _ => True
  | _, infinite false => True
  | finite a, finite b => a <= b
  | _, _ => False
  end.

(** "version descending": [a] may stand before [b]. *)
Definition version_descending (a b : Browser.t) : Prop :=
  number_le (parseFloat (Browser.browser_version b))
            (parseFloat (Browser.browser_version a)).

(** The comparator handed to [sort] by [getBrowsersThatMatchSpec]. *)
Definition compare_versions (a b : Browser.t) : number :=
  number_sub (parseFloat (Browser.browser_version b))
             (parseFloat (Browser.browser_version a)).

(** The candidates that are left after step 2 of the matching. *)
Definition selection (catalog : list Browser.t) (spec : BrowserSpec.t) : list Browser.t :=
  match BrowserSpec.browser_version spec with
  | type_list versions =>
      List.filter (fun browser => includes versions (Browser.browser_version browser))
                  (candidates catalog spec)
  | type_last value =>
      slice_list 0 (ToNumber_digits value) (sort_list compare_versions (candidates catalog spec))
  | type_no_version => candidates catalog spec
  end.

(** A [last N] spec with fewer than [N] candidates. *)
Definition not_enough_versions (catalog : list Browser.t) (spec : BrowserSpec.t) : bool :=
  match BrowserSpec.browser_version spec with
  | type_last value => Z.of_nat (length (candidates catalog spec)) <? ToNumber_digits value
  | _ => false
  end.

Definition fatal (headline : string) (spec : BrowserSpec.t) : list event :=
  [console_error (text headline); console_error (JSON_stringify spec);
   console_error (text "Exiting...")].

(** The only things the matcher and the aggregator print. *)
Definition diagnostic (e : event) : Prop :=
  e = console_warn (text "duplicate browser") \/ exists m, e = console_error m.

(** ** Runs *)

(** [m] run in [w] returns a reference to an array holding [l]. *)
Definition returns_array (m : M loc) (w : world) (l : list Browser.t) : Prop :=
  exists r w', m w = (Returned r, w') /\ arrays w' !! r = Some l.

(** [m] run in [w] ends the process with [status] after writing [out] to
    the console. *)
Definition exits {A : Type} (m : M A) (w : world) (status : Z) (out : list event) : Prop :=
  exists w', m w = (Exited status, w') /\ console w' = console w ++ out.

(** One round of the loop of [addBrowsers], on the map itself. *)
Definition insert_browser (obj : object) (browser : Browser.t) : object :=
  set_property obj (getBrowserId browser) browser.

Definition insert_browsers (obj : object) (browsers : list Browser.t) : object :=
  foldl insert_browser obj browsers.

Fixpoint duplicate_warnings (obj : object) (browsers : list Browser.t) : list event :=
  match browsers with
  | [] => []
  | browser :: browsers' =>
      (if has_property obj (getBrowserId browser)
       then [console_warn (text "duplicate browser")]
       else []) ++
      duplicate_warnings (insert_browser obj browser) browsers'
  end.

(** The own property [k] of a map. *)
Fixpoint own_lookup (k : string) (props : list (string * Browser.t)) : option Browser.t :=
  match props with
  | [] => None
  | (k', v) :: props' => if String.eqb k k' then Some v else own_lookup k props'
  end.

(** What holds of the world throughout [getTargetBrowsers], started in
    [w0] with the target map at [target]: the arrays of [w0] are all still
    there with their contents, no other object was touched, the map holds
    catalogue entries only, and the console only grew, by diagnostics. *)
Definition aggregating (w0 : world) (target : loc) (catalog : list Browser.t) (w : world) : Prop :=
  arrays w0 ⊆ arrays w /\
  (forall o, o <> target -> objects w !! o = objects w0 !! o) /\
  (exists obj, objects w !! target = Some obj /\
               Forall (fun b => In b catalog) (map snd (own obj))) /\
  exists out, console w = console w0 ++ out /\ Forall diagnostic out.

(** A computation keeps [I] and ends by returning or by [process.exit(1)]. *)
Definition keeps {A : Type} (I : world -> Prop) (m : M A) : Prop :=
  forall w, I w ->
    ((exists a, (m w).1 = Returned a) \/ (m w).1 = Exited 1) /\ I (m w).2.

(** ** Sample data

    A small catalogue and spec file on which the theorems are exercised. *)
Definition chrome (version : value) : Browser.t :=
  Browser.mk (str "Windows") (str "10") (str "chrome") version null.

Definition sample_catalog : list Browser.t :=
  [chrome (str "60.0"); chrome (str "9"); chrome (str "62.0");
   chrome (str "10"); chrome (str "61.0");
   Browser.mk (str "ios") (str "10.3") (str "Mobile Safari") null (str "iPhone 7")].

Definition sample_world : world := mkWorld {[ 1%positive := sample_catalog ]} ∅ [].

Definition chrome_spec (version : value) : BrowserSpec.t :=
  BrowserSpec.mk undefined (str "Windows") (str "10") (str "chrome")
                 (parseBrowserVersion version).

Definition sample_fetched : list Browser.t :=
  [chrome (str "62.0"); chrome (str "63.0 beta"); chrome null;
   chrome (str "64"); chrome (str "dev")].

Definition windows_group (entries : list BrowserEntry.t) : GroupedBrowserSpec.t :=
  GroupedBrowserSpec.mk undefined (str "Windows") (str "10") entries.

Definition sample_specs : list GroupedBrowserSpec.t :=
  [windows_group [BrowserEntry.mk (str "chrome") (str "last 2");
                  BrowserEntry.mk (str "chrome") (str "9,62.0")];
   GroupedBrowserSpec.mk (str "iPhone 7") (str "ios") (str "10.3")
     [BrowserEntry.mk (str "Mobile Safari") undefined]].

(** ** The aggregation as a fold *)

(** The specs built from one group by the [map] inside [getTargetBrowsers]. *)
Definition resolve_group (aggregatedSpec : GroupedBrowserSpec.t) : list BrowserSpec.t :=
  map (fun spec =>
    BrowserSpec.mk
      (GroupedBrowserSpec.device aggregatedSpec)
      (GroupedBrowserSpec.os aggregatedSpec)
      (GroupedBrowserSpec.os_version aggregatedSpec)
      (BrowserEntry.browser spec)
      (parseBrowserVersion (BrowserEntry.browser_version spec)))
    (GroupedBrowserSpec.browsers aggregatedSpec).

(** All the specs the two nested [forEach] of [getTargetBrowsers] go
    through, in the order they do. *)
Definition resolved_specs (aggregatedSpecs : list GroupedBrowserSpec.t) : list BrowserSpec.t :=
  List.concat (map resolve_group aggregatedSpecs).

(** The spec passes both fatal checks of [getBrowsersThatMatchSpec]. *)
Definition satisfiable (catalog : list Browser.t) (spec : BrowserSpec.t) : bool :=
  negb (not_enough_versions catalog spec) &&
  match selection catalog spec with
  | [] => false
  | _ :: _ => true
  end.

(** The first line of the fatal message for a spec that is not satisfiable. *)
Definition fatal_headline (catalog : list Browser.t) (spec : BrowserSpec.t) : string :=
  if not_enough_versions catalog spec
  then "Not enough versions available for the following spec:"
  else "No browsers available for the following spec:".

(** The browsers handed to [addBrowsers] before the first spec that is not
    satisfiable, and that spec when there is one. *)
Fixpoint matched_until_failure (catalog : list Browser.t) (specs : list BrowserSpec.t)
  : list Browser.t * option BrowserSpec.t :=
  match specs with
  | [] => ([], None)
  | spec :: specs' =>
      if satisfiable catalog spec
      then let (browsers, failure) := matched_until_failure catalog specs' in
           (selection catalog spec ++ browsers, failure)
      else ([], Some spec)
  end.

(** Every own property of the map is filed under the identity key of its
    value. *)
Definition well_keyed (obj : object) : Prop :=
  Forall (fun kv => fst kv = getBrowserId (snd kv)) (own obj).

(** ToBoolean is false. *)
Definition falsy (v : value) : Prop :=
  v = undefined \/ v = null \/ v = str EmptyString.

(** The part of [main] between the loading of the two inputs and the
    [console.log] of the result: the catalogue is filtered, then
    matched. *)
Definition main_selection (browsers : loc) (aggregatedBrowserSpecs : list GroupedBrowserSpec.t)
  : M loc :=
  availableBrowsers ← loadAvailableBrowsers browsers;
  getTargetBrowsers availableBrowsers aggregatedBrowserSpecs.

(** The check of [loadAvailableBrowsers] on one entry. *)
Definition stable (browser : Browser.t) : bool :=
  negb (truthy (Browser.browser_version browser)) ||
  (truthy (Browser.browser_version browser) &&
   exec_stable_version (ToString (Browser.browser_version browser))).


Definition no_underscore (s : string) : Prop :=
  ~ In "_"%char (list_ascii_of_string s).

(** The fields of a record as [join] prints them. *)
Definition printed_fields (b : Browser.t) : list string :=
  map join_element
    [Browser.os b; Browser.os_version b; Browser.browser b;
     Browser.browser_version b; Browser.device b].

Fixpoint count_commas (s : string) : nat :=
  match s with
  | EmptyString => 0
  | String c s' => (if Ascii.eqb c "," then 1 else 0) + count_commas s'
  end.

(** The version of a record read as a decimal integer. *)
Definition version_integer (b : Browser.t) : Z :=
  digits_value 0 (ToString (Browser.browser_version b)).

(** The version is an integer literal below [2^53]. *)
Definition small_integer_version (b : Browser.t) : Prop :=
  exists s, Browser.browser_version b = str s /\ integer_literal s /\
            digits_value 0 s < 2 ^ 53.

(** The browsers handed to [addBrowsers] when every resolved spec is
    satisfiable: the selections, one after the other. *)
Definition all_matches (catalog : list Browser.t) (aggregatedSpecs : list GroupedBrowserSpec.t)
  : list Browser.t :=
  List.concat (map (selection catalog) (resolved_specs aggregatedSpecs)).

Definition duplicate_warning : event := console_warn (text "duplicate browser").

(** ** More sample data *)

Definition iphone (device : string) : Browser.t :=
  Browser.mk (str "ios") (str "10.3") (str "Mobile Safari") null (str device).




Definition integer_catalog : list Browser.t :=
  [chrome (str "99"); chrome (str "100"); chrome (str "9"); chrome (str "101")].

Definition integer_world : world := mkWorld {[ 1%positive := integer_catalog ]} ∅ [].


Definition failing_specs : list GroupedBrowserSpec.t :=
  [windows_group [BrowserEntry.mk (str "chrome") (str "last 2");
                  BrowserEntry.mk (str "chrome") (str "62.0");
                  BrowserEntry.mk (str "firefox") undefined;
                  BrowserEntry.mk (str "chrome") (str "last 9")]].

Definition aggregator_world : world :=
  mkWorld {[ 1%positive := sample_catalog ]} {[ 2%positive := mkObject [] None ]} [].

(** * Properties *)

(** ** Strings *)

Lemma append_nil_l (s : string) : EmptyString +:+ s = s.
Proof. reflexivity. Qed.

Lemma append_cons (c : ascii) (s t : string) : String c s +:+ t = String c (s +:+ t).
Proof. reflexivity. Qed.

Lemma append_empty_r (s : string) : s +:+ EmptyString = s.
Proof. induction s as [|c s IH]; [reflexivity|]. rewrite append_cons. congruence. Qed.

Lemma take_digits_spec (s : string) :
  s = fst (take_digits s) +:+ snd (take_digits s) /\
  all_digits (fst (take_digits s)) /\ no_digit_ahead (snd (take_digits s)).
Proof.
  induction s as [|c s (IH1 & IH2 & IH3)]; simpl.
  - split; [reflexivity|]. split; [intros c []|exact I].
  - destruct (is_digit c) eqn:Hc.
    + destruct (take_digits s) as [ds rest]; simpl in *.
      split; [rewrite append_cons; congruence|]. split; [|assumption].
      intros c' [<-|Hin]; [assumption|by apply IH2].
    + simpl. split; [reflexivity|]. split; [intros c' []|assumption].
Qed.

Lemma take_digits_app (ds rest : string) :
  all_digits ds -> no_digit_ahead rest -> take_digits (ds +:+ rest) = (ds, rest).
Proof.
  intros Hds Hrest. induction ds as [|c ds IH].
  - rewrite append_nil_l.
    destruct rest as [|c rest]; simpl in *; [reflexivity|]. by rewrite Hrest.
  - rewrite append_cons. simpl. rewrite (Hds c) by (simpl; auto).
    rewrite IH; [reflexivity|]. intros c' Hc'. apply Hds. simpl. auto.
Qed.

Lemma exec_stable_version_spec (s : string) :
  exec_stable_version s = true <-> stable_version_pattern s.
Proof.
  unfold exec_stable_version, stable_version_pattern. split.
  - destruct (take_digits_spec s) as (Hs & Hds & _).
    destruct (take_digits s) as [ds rest]; simpl in *.
    destruct ds as [|c ds]; [discriminate|].
    destruct rest as [|c' rest].
    + intros _. left. rewrite Hs, append_empty_r. split; [discriminate|assumption].
    + intros [Hdot Hfrac]%andb_prop. apply Ascii.eqb_eq in Hdot as ->.
      destruct (take_digits_spec rest) as (Hr & Hds2 & _).
      destruct (take_digits rest) as [[|c2 ds2] [|? ?]]; try discriminate; simpl in *.
      right. exists (String c ds), (String c2 ds2).
      split; [|split; split; (discriminate || assumption)].
      rewrite Hs, Hr. simpl. by rewrite append_empty_r.
  - intros [[Hne Hds]|(a & b & -> & [Ha Hda] & [Hb Hdb])].
    + rewrite <- (append_empty_r s) at 1.
      rewrite take_digits_app by (assumption || exact I).
      destruct s; [congruence|reflexivity].
    + rewrite take_digits_app by (assumption || reflexivity).
      destruct a as [|ca a]; [congruence|]. rewrite append_cons, append_nil_l.
      rewrite Ascii.eqb_refl. cbn [andb].
      rewrite <- (append_empty_r b) at 1.
      rewrite take_digits_app by (assumption || exact I).
      destruct b; [congruence|reflexivity].
Qed.

(** ** [parseFloat] *)

(** Some doubles, to pin the rounding down: [0.1] is
    [0x1999999999999A * 2^-56]; [2^53 + 1] is a tie and goes to the even
    neighbour, [2^53 + 3] to [2^53 + 4]; the largest double is
    [(2^53 - 1) * 2^971] and a literal just above it is [Infinity]; the
    smallest is [2^-1074]. *)
Example parseFloat_tenth :
  parseFloat (str "0.1") = finite (0x1999999999999A * 2 ^ (1074 - 56)).
Proof. vm_compute. reflexivity. Qed.

Example parseFloat_ties_to_even :
  parseFloat (str "9007199254740993") = finite (9007199254740992 * 2 ^ 1074) /\
  parseFloat (str "9007199254740995") = finite (9007199254740996 * 2 ^ 1074).
Proof. split; vm_compute; reflexivity. Qed.

Example parseFloat_largest :
  parseFloat (str "1.7976931348623157e308") = finite ((2 ^ 53 - 1) * 2 ^ (971 + 1074)) /\
  parseFloat (str "1.7976931348623159e308") = infinite false.
Proof. split; vm_compute; reflexivity. Qed.

Example parseFloat_smallest :
  parseFloat (str "5e-324") = finite 1 /\ parseFloat (str "2e-324") = finite 0.
Proof. split; vm_compute; reflexivity. Qed.

Example parseFloat_prefix :
  parseFloat (str "  -3e2xyz") = finite (- 300 * 2 ^ 1074) /\
  parseFloat (str "10.0-beta") = finite (10 * 2 ^ 1074) /\
  parseFloat (str "beta") = NaN /\ parseFloat null = NaN.
Proof. repeat split; vm_compute; reflexivity. Qed.

Lemma round64_not_NaN (negative : bool) (num den : Z) : round64 negative num den <> NaN.
Proof. unfold round64. by destruct (_ <=? _). Qed.

(** A string that starts with a digit parses to a number. *)
Lemma parseFloat_digit_head (c : ascii) (s : string) :
  is_digit c = true -> parseFloat (str (String c s)) <> NaN.
Proof.
  intros Hc. unfold parseFloat. cbn [ToString].
  assert (Hhead : take_sign (skip_white_space (String c s)) = (false, String c s) /\
                  skip_literal "Infinity" (String c s) = None).
  { destruct c as [[] [] [] [] [] [] [] []];
      try (vm_compute in Hc; discriminate Hc); split; reflexivity. }
  destruct Hhead as [-> ->]. cbn [take_digits]. rewrite Hc.
  destruct (take_digits s) as [ds s1].
  match goal with |- context [let (_, _) := ?e in _] => destruct e as [frac s2] end.
  rewrite append_cons.
  destruct (0 <=? _); apply round64_not_NaN.
Qed.

Lemma numeric_version_not_NaN (v : value) : numeric_version v -> parseFloat v <> NaN.
Proof.
  intros (s & -> & Hs).
  assert (Hhead : exists c s', s = String c s' /\ is_digit c = true).
  { destruct Hs as [[Hne Hds]|(a & b & -> & [Hne Hds] & _)].
    - destruct s as [|c s']; [congruence|]. exists c, s'. split; [reflexivity|].
      apply Hds. simpl. auto.
    - destruct a as [|c a']; [congruence|]. exists c, (a' +:+ "." +:+ b).
      split; [reflexivity|]. apply Hds. simpl. auto. }
  destruct Hhead as (c & s' & -> & Hc). by apply parseFloat_digit_head.
Qed.

(** ** [/last (\d+)/] *)

Lemma skip_literal_Some (p s rest : string) :
  skip_literal p s = Some rest <-> s = p +:+ rest.
Proof.
  revert s. induction p as [|a p IH]; intros s.
  - simpl. rewrite append_nil_l. split; congruence.
  - rewrite append_cons. destruct s as [|b s]; simpl; [split; discriminate|].
    destruct (Ascii.eqb_spec a b) as [->|Hne].
    + rewrite IH. split; congruence.
    + split; [discriminate|congruence].
Qed.

Lemma match_last_here_spec (s ds : string) :
  match_last_here s = Some ds <-> last_pattern_at s EmptyString ds.
Proof.
  unfold match_last_here, last_pattern_at. split.
  - destruct (skip_literal "last " s) as [rest0|] eqn:Hskip; [|discriminate].
    apply skip_literal_Some in Hskip as ->.
    destruct (take_digits_spec rest0) as (Hr & Hds & Hrest).
    destruct (take_digits rest0) as [[|c ds0] rest]; [discriminate|].
    intros [= <-]. simpl in *. exists rest.
    split; [by rewrite append_nil_l, <- Hr|]. split; [|assumption].
    split; [discriminate|assumption].
  - intros (rest & -> & [Hne Hds] & Hrest). rewrite append_nil_l.
    assert (Hskip : skip_literal "last " ("last " +:+ ds +:+ rest) = Some (ds +:+ rest))
      by (by apply skip_literal_Some).
    rewrite Hskip, take_digits_app by assumption.
    destruct ds; [congruence|reflexivity].
Qed.

Lemma last_pattern_at_cons (c c' : ascii) (s pre ds : string) :
  last_pattern_at (String c s) (String c' pre) ds <-> c = c' /\ last_pattern_at s pre ds.
Proof.
  unfold last_pattern_at. split.
  - intros (rest & Hs & H). rewrite append_cons in Hs. injection Hs as -> ->.
    split; [reflexivity|]. by exists rest.
  - intros [-> (rest & -> & H)]. exists rest. by rewrite append_cons.
Qed.

Lemma last_pattern_at_empty (pre ds : string) : ~ last_pattern_at EmptyString pre ds.
Proof.
  intros (rest & Hs & _). destruct pre; [rewrite append_nil_l in Hs|rewrite append_cons in Hs];
    discriminate Hs.
Qed.

Lemma exec_last_None (s : string) :
  exec_last s = None -> ~ matches_last_pattern s.
Proof.
  induction s as [|c s IH]; intros Hexec (pre & ds & Hat).
  - by apply last_pattern_at_empty in Hat.
  - simpl in Hexec.
    destruct (match_last_here (String c s)) as [res1|] eqn:Hhere; [discriminate|].
    destruct pre as [|c' pre].
    + apply match_last_here_spec in Hat. congruence.
    + apply last_pattern_at_cons in Hat as [_ Hat]. apply IH; [assumption|].
      by exists pre, ds.
Qed.

Lemma exec_last_Some (s ds : string) :
  exec_last s = Some ds ->
  exists pre, last_pattern_at s pre ds /\
    forall pre' ds', last_pattern_at s pre' ds' -> (String.length pre <= String.length pre')%nat.
Proof.
  revert ds. induction s as [|c s IH]; intros ds Hexec.
  - discriminate Hexec.
  - simpl in Hexec.
    destruct (match_last_here (String c s)) as [res1|] eqn:Hhere.
    + injection Hexec as ->. exists EmptyString.
      split; [by apply match_last_here_spec|]. intros. simpl. lia.
    + destruct (IH _ Hexec) as (pre & Hat & Hmin). exists (String c pre).
      split; [by apply last_pattern_at_cons|].
      intros [|c' pre'] ds' Hat'.
      * apply match_last_here_spec in Hat'. congruence.
      * apply last_pattern_at_cons in Hat' as [_ Hat']. simpl.
        apply Hmin in Hat'. lia.
Qed.

(** ** [split(',')] *)


Lemma split_comma_cons (s : string) : exists piece pieces, split_comma s = piece :: pieces.
Proof.
  destruct s as [|c s]; simpl; [eauto|].
  destruct (Ascii.eqb c ","); [eauto|]. destruct (split_comma s); eauto.
Qed.

Lemma join_cons (sep x y : string) (ys : list string) :
  join sep (x :: y :: ys) = x +:+ sep +:+ join sep (y :: ys).
Proof. reflexivity. Qed.

Lemma split_comma_spec (s : string) :
  join "," (split_comma s) = s /\ Forall no_comma (split_comma s).
Proof.
  induction s as [|c s [IHj IHf]]; simpl.
  - split; [reflexivity|]. constructor; [intros []|constructor].
  - destruct (Ascii.eqb_spec c ",") as [->|Hne].
    + destruct (split_comma_cons s) as (p & ps & Hsplit). rewrite Hsplit in *.
      split.
      * rewrite join_cons, append_nil_l, append_cons, append_nil_l. by rewrite IHj.
      * constructor; [intros []|assumption].
    + destruct (split_comma_cons s) as (p & ps & Hsplit). rewrite Hsplit in *.
      apply Forall_cons in IHf as [Hp Hps]. split.
      * destruct ps as [|p' ps]; [simpl in *; congruence|].
        rewrite join_cons, append_cons, <- join_cons. congruence.
      * constructor; [|assumption]. intros [Heq|Hin]; [congruence|by apply Hp].
Qed.

(** ** Numbers *)

(** Rounding keeps a positive value positive: it may reach [Infinity] but
    never zero, the smallest double being one unit. *)
Lemma round64_positive (negative : bool) (num : Z) :
  0 < num -> is_positive (round64 negative num 1) = negb negative.
Proof.
  intros Hnum. unfold round64. rewrite Z.div_1_r.
  set (d := if num <? 2 ^ 53 then 0 else Z.log2 num - 52).
  assert (Hd : 0 <= d /\ 2 ^ d <= num).
  { unfold d. destruct (Z.ltb_spec num (2 ^ 53)) as [Hlt|Hge].
    - simpl. lia.
    - assert (53 <= Z.log2 num) by (apply Z.log2_le_pow2; lia).
      split; [lia|]. apply Z.log2_le_pow2; lia. }
  destruct Hd as [Hd0 Hd]. rewrite Z.mul_1_l.
  assert (Hpow : 0 < 2 ^ d) by (apply Z.pow_pos_nonneg; lia).
  assert (Hq : 1 <= num / 2 ^ d).
  { apply Z.div_le_lower_bound; lia. }
  set (q := num / 2 ^ d) in *.
  match goal with |- context [if ?c then q + 1 else q] => set (q' := if c then q + 1 else q) end.
  assert (Hq' : 1 <= q') by (unfold q'; destruct (_ || _); lia).
  assert (Hv : 0 < q' * 2 ^ d) by nia.
  destruct (2 ^ 2098 <=? q' * 2 ^ d); simpl; [reflexivity|].
  destruct negative; simpl; lia.
Qed.

Lemma round64_zero (negative : bool) : round64 negative 0 1 = finite 0.
Proof. destruct negative; reflexivity. Qed.

Lemma is_positive_sub_finite (a b : Z) :
  is_positive (number_sub (finite b) (finite a)) = (a <? b).
Proof.
  cbn [number_sub]. destruct (Z.lt_trichotomy a b) as [H|[H|H]].
  - rewrite round64_positive by lia.
    replace (b - a <? 0) with false by lia. simpl. lia.
  - subst. rewrite Z.sub_diag. change (Z.abs 0) with 0.
    rewrite round64_zero. simpl. lia.
  - rewrite round64_positive by lia.
    replace (b - a <? 0) with true by lia. simpl. lia.
Qed.

(** The sign of [y - x] orders [x] and [y]. *)
Lemma is_positive_sub (x y : number) :
  x <> NaN -> y <> NaN ->
  if is_positive (number_sub y x) then number_le x y else number_le y x.
Proof.
  intros Hx Hy.
  destruct x as [|[|]|a], y as [|[|]|b]; try congruence; try exact I.
  rewrite is_positive_sub_finite. simpl. destruct (Z.ltb_spec a b); lia.
Qed.

Lemma number_le_total (x y : number) :
  x <> NaN -> y <> NaN -> number_le x y \/ number_le y x.
Proof.
  intros Hx Hy.
  destruct x as [|[|]|a], y as [|[|]|b]; try congruence; simpl; try tauto. lia.
Qed.

Lemma number_le_trans (x y z : number) :
  number_le x y -> number_le y z -> number_le x z.
Proof.
  destruct x as [|[|]|a], y as [|[|]|b], z as [|[|]|c]; simpl; try tauto. lia.
Qed.

(** ** Sorting *)

Section Sort.
Context {A : Type} (comparefn : A -> A -> number) (before : A -> A -> Prop) (P : A -> Prop).
Hypothesis before_trans : forall x y z, before x y -> before y z -> before x z.
Hypothesis comparefn_spec :
  forall x y, P x -> P y ->
    if is_positive (comparefn x y) then before y x else before x y.

Lemma sort_insert_Permutation (x : A) (l : list A) :
  sort_insert comparefn x l ≡ₚ x :: l.
Proof.
  induction l as [|y l IH]; simpl; [reflexivity|].
  destruct (is_positive _); [|reflexivity].
  rewrite IH. apply perm_swap.
Qed.

Lemma sort_list_Permutation (l : list A) : sort_list comparefn l ≡ₚ l.
Proof.
  induction l as [|x l IH]; simpl; [reflexivity|].
  rewrite sort_insert_Permutation. by rewrite IH.
Qed.

Lemma sort_insert_StronglySorted (x : A) (l : list A) :
  P x -> Forall P l -> StronglySorted before l ->
  StronglySorted before (sort_insert comparefn x l).
Proof.
  intros Hx HP Hs. induction Hs as [|y l Hs IH Hy]; simpl.
  - repeat constructor.
  - apply Forall_cons in HP as [HPy HPl].
    pose proof (comparefn_spec x y Hx HPy) as Hc.
    destruct (is_positive (comparefn x y)).
    + constructor; [by apply IH|].
      rewrite sort_insert_Permutation. by constructor.
    + constructor; [by constructor|].
      constructor; [assumption|].
      eapply Forall_impl; [exact Hy|]. intros z Hz. by eapply before_trans.
Qed.

Lemma sort_list_StronglySorted (l : list A) :
  Forall P l -> StronglySorted before (sort_list comparefn l).
Proof.
  induction 1 as [|x l Hx Hl IH]; simpl; [constructor|].
  apply sort_insert_StronglySorted; [assumption| |assumption].
  by rewrite sort_list_Permutation.
Qed.

End Sort.

Lemma sort_versions_StronglySorted (l : list Browser.t) :
  Forall (fun b => parseFloat (Browser.browser_version b) <> NaN) l ->
  StronglySorted version_descending (sort_list compare_versions l).
Proof.
  apply sort_list_StronglySorted.
  - intros x y z. unfold version_descending. intros Hxy Hyz.
    eapply number_le_trans; eassumption.
  - intros x y Hx Hy. unfold compare_versions, version_descending.
    pose proof (is_positive_sub _ _ Hx Hy) as H.
    destruct (is_positive _); assumption.
Qed.

(** ** Runs of the array operations *)

Lemma fresh_array_None (w : world) : arrays w !! fresh (dom (arrays w)) = None.
Proof. apply not_elem_of_dom, is_fresh. Qed.

Lemma run_bind {A B : Type} (m : M A) (k : A -> M B) (w : world) :
  (m ≫= k) w =
  match m w with
  | (Returned a, w') => k a w'
  | (Exited status, w') => (Exited status, w')
  | (Fault, w') => (Fault, w')
  end.
Proof. reflexivity. Qed.

Ltac run := repeat (first [rewrite run_bind | progress cbv beta iota]).

Lemma run_Array_filter (a : loc) (f : Browser.t -> bool) (w : world) (l : list Browser.t) :
  arrays w !! a = Some l ->
  Array_filter a f w =
  (Returned (fresh (dom (arrays w))),
   mkWorld (<[fresh (dom (arrays w)) := List.filter f l]> (arrays w)) (objects w) (console w)).
Proof. intros Ha. unfold Array_filter, read_array. rewrite run_bind, Ha. reflexivity. Qed.

Lemma run_Array_slice (a : loc) (i j : Z) (w : world) (l : list Browser.t) :
  arrays w !! a = Some l ->
  Array_slice a i j w =
  (Returned (fresh (dom (arrays w))),
   mkWorld (<[fresh (dom (arrays w)) := slice_list i j l]> (arrays w)) (objects w) (console w)).
Proof. intros Ha. unfold Array_slice, read_array. rewrite run_bind, Ha. reflexivity. Qed.

Lemma run_Array_length (a : loc) (w : world) (l : list Browser.t) :
  arrays w !! a = Some l ->
  Array_length a w = (Returned (Z.of_nat (length l)), w).
Proof. intros Ha. unfold Array_length, read_array. rewrite run_bind, Ha. reflexivity. Qed.

Lemma run_Array_sort (a : loc) (c : Browser.t -> Browser.t -> number) (w : world) (l : list Browser.t) :
  arrays w !! a = Some l ->
  Array_sort a c w =
  (Returned tt, mkWorld (<[a := sort_list c l]> (arrays w)) (objects w) (console w)).
Proof. intros Ha. unfold Array_sort, read_array. rewrite run_bind, Ha. reflexivity. Qed.

Lemma length_sort_insert {A : Type} (c : A -> A -> number) (x : A) (l : list A) :
  length (sort_insert c x l) = S (length l).
Proof. induction l as [|y l IH]; simpl; [reflexivity|]. destruct (is_positive _); simpl; congruence. Qed.

Lemma length_sort_list {A : Type} (c : A -> A -> number) (l : list A) :
  length (sort_list c l) = length l.
Proof. induction l as [|x l IH]; simpl; [reflexivity|]. rewrite length_sort_insert. congruence. Qed.

(** What one call of [getBrowsersThatMatchSpec] does, in terms of the
    catalogue it reads: every array that was there stays as it was, the
    objects are untouched, and the call ends in one of three ways. *)
Lemma getBrowsersThatMatchSpec_run (a : loc) (spec : BrowserSpec.t) (w : world) (cat : list Browser.t) :
  arrays w !! a = Some cat ->
  exists w',
    arrays w ⊆ arrays w' /\ objects w' = objects w /\
    if not_enough_versions cat spec then
      getBrowsersThatMatchSpec a spec w = (Exited 1, w') /\
      console w' = console w ++ fatal "Not enough versions available for the following spec:" spec
    else
      match selection cat spec with
      | [] =>
          getBrowsersThatMatchSpec a spec w = (Exited 1, w') /\
          console w' = console w ++ fatal "No browsers available for the following spec:" spec
      | l =>
          exists r, getBrowsersThatMatchSpec a spec w = (Returned r, w') /\
                    arrays w' !! r = Some l /\ arrays w !! r = None /\
                    console w' = console w
      end.
Proof.
  intros Ha.
  unfold getBrowsersThatMatchSpec, not_enough_versions, selection.
  rewrite run_bind, (run_Array_filter _ _ _ _ Ha).
  fold (same_group spec). fold (candidates cat spec).
  set (r1 := fresh (dom (arrays w))).
  assert (Hr1 : arrays w !! r1 = None) by apply fresh_array_None.
  set (w1 := mkWorld _ _ _).
  assert (Hw1 : arrays w1 !! r1 = Some (candidates cat spec)) by apply lookup_insert_eq.
  assert (Hsub1 : arrays w ⊆ arrays w1) by (apply insert_subseteq, Hr1).
  destruct (BrowserSpec.browser_version spec) as [value|versions|].
  - (* last *)
    run. rewrite (run_Array_sort _ _ _ _ Hw1). run.
    fold compare_versions.
    set (w2 := mkWorld _ _ _).
    assert (Hw2 : arrays w2 !! r1 = Some (sort_list compare_versions (candidates cat spec)))
      by apply lookup_insert_eq.
    assert (Hsub2 : arrays w ⊆ arrays w2).
    { unfold w2, w1. simpl. rewrite insert_insert_eq. apply insert_subseteq, Hr1. }
    run. rewrite (run_Array_length _ _ _ Hw2), length_sort_list. run.
    destruct (Z.of_nat (length (candidates cat spec)) <? ToNumber_digits value) eqn:Hlt.
    + eexists. split; [|split; [|split; [reflexivity|]]]; simpl.
      * exact Hsub2.
      * reflexivity.
      * rewrite <- !app_assoc. reflexivity.
    + cbn [mret M_ret]. run. cbn [mret M_ret]. run.
      rewrite (run_Array_slice _ _ _ _ _ Hw2). run.
      set (r2 := fresh (dom (arrays w2))).
      assert (Hr2 : arrays w2 !! r2 = None) by apply fresh_array_None.
      set (w3 := mkWorld _ _ _).
      set (sel := slice_list 0 _ _).
      assert (Hw3 : arrays w3 !! r2 = Some sel) by apply lookup_insert_eq.
      assert (Hsub3 : arrays w ⊆ arrays w3).
      { etrans; [exact Hsub2|]. apply insert_subseteq, Hr2. }
      rewrite (run_Array_length _ _ _ Hw3). run.
      destruct sel as [|b sel'] eqn:Hsel.
      * exists (mkWorld (arrays w3) (objects w) (console w ++ fatal "No browsers available for the following spec:" spec)).
        split; [exact Hsub3|]. split; [reflexivity|]. split; [|reflexivity].
        simpl. rewrite <- !app_assoc. reflexivity.
      * exists w3. split; [exact Hsub3|]. split; [reflexivity|].
        exists r2. split; [reflexivity|]. split; [exact Hw3|]. split; [|reflexivity].
        eapply lookup_weaken_None; [exact Hr2|exact Hsub2].
  - (* list *)
    run. rewrite (run_Array_filter _ _ _ _ Hw1). run.
    set (r2 := fresh (dom (arrays w1))).
    assert (Hr2 : arrays w1 !! r2 = None) by apply fresh_array_None.
    set (w2 := mkWorld _ _ _).
    set (sel := List.filter _ (candidates cat spec)).
    assert (Hw2 : arrays w2 !! r2 = Some sel) by apply lookup_insert_eq.
    assert (Hsub2 : arrays w ⊆ arrays w2).
    { etrans; [exact Hsub1|]. apply insert_subseteq, Hr2. }
    rewrite (run_Array_length _ _ _ Hw2). run.
    destruct sel as [|b sel'] eqn:Hsel.
    + exists (mkWorld (arrays w2) (objects w) (console w ++ fatal "No browsers available for the following spec:" spec)).
      split; [exact Hsub2|]. split; [reflexivity|]. split; [|reflexivity].
      simpl. rewrite <- !app_assoc. reflexivity.
    + exists w2. split; [exact Hsub2|]. split; [reflexivity|].
      exists r2. split; [reflexivity|]. split; [exact Hw2|]. split; [|reflexivity].
      eapply lookup_weaken_None; [exact Hr2|exact Hsub1].
  - (* no-version *)
    run. cbn [mret M_ret]. run.
    rewrite (run_Array_length _ _ _ Hw1). run.
    destruct (candidates cat spec) as [|b sel'] eqn:Hsel.
    + exists (mkWorld (arrays w1) (objects w) (console w ++ fatal "No browsers available for the following spec:" spec)).
      split; [exact Hsub1|]. split; [reflexivity|]. split; [|reflexivity].
      simpl. rewrite <- !app_assoc. reflexivity.
    + exists w1. split; [exact Hsub1|]. split; [reflexivity|].
      exists r1. split; [reflexivity|]. split; [exact Hw1|]. split; [exact Hr1|reflexivity].
Qed.

(** ** The aggregator *)

Lemma world_eta (w : world) : mkWorld (arrays w) (objects w) (console w) = w.
Proof. by destruct w. Qed.

Lemma run_read_object (o : loc) (w : world) (obj : object) :
  objects w !! o = Some obj -> read_object o w = (Returned obj, w).
Proof. intros H. unfold read_object. by rewrite H. Qed.

Lemma forEach_run_cons {A : Type} (x : A) (xs : list A) (f : A -> M unit) (w : world) :
  forEach (x :: xs) f w =
  match f x w with
  | (Returned _, w') => forEach xs f w'
  | (Exited status, w') => (Exited status, w')
  | (Fault, w') => (Fault, w')
  end.
Proof. reflexivity. Qed.

Lemma addBrowsers_step (browserMap : loc) (browser : Browser.t) (w : world) (obj : object) :
  objects w !! browserMap = Some obj ->
  (obj' ← read_object browserMap;
   (if has_property obj' (getBrowserId browser)
    then emit (console_warn (text "duplicate browser"))
    else mret ());;
   obj'' ← read_object browserMap;
   write_object browserMap (set_property obj'' (getBrowserId browser) browser)) w =
  (Returned tt,
   mkWorld (arrays w) (<[browserMap := insert_browser obj browser]> (objects w))
           (console w ++ duplicate_warnings obj [browser])).
Proof.
  intros Hobj. run. rewrite (run_read_object _ _ _ Hobj). run.
  unfold duplicate_warnings, insert_browser, read_object, write_object.
  destruct (has_property obj (getBrowserId browser));
    unfold emit, mret, M_ret; cbn [arrays objects console]. 
  all: rewrite run_bind; cbv beta; cbn [arrays objects console]; rewrite Hobj.
  - reflexivity.
  - cbn [arrays objects console]. by rewrite !app_nil_r.
Qed.

Lemma forEach_addBrowsers_run (browserMap : loc) (l : list Browser.t) (w : world) (obj : object) :
  objects w !! browserMap = Some obj ->
  forEach l (fun browser =>
    let id := getBrowserId browser in
    obj ← read_object browserMap;
    (if has_property obj id
     then emit (console_warn (text "duplicate browser"))
     else mret tt);;
    obj ← read_object browserMap;
    write_object browserMap (set_property obj id browser)) w =
  (Returned tt,
   mkWorld (arrays w) (<[browserMap := insert_browsers obj l]> (objects w))
           (console w ++ duplicate_warnings obj l)).
Proof.
  revert w obj. induction l as [|b l IH]; intros w obj Hobj.
  - simpl. unfold mret, M_ret. rewrite app_nil_r, insert_id by exact Hobj.
    by rewrite world_eta.
  - rewrite forEach_run_cons. cbv zeta. rewrite (addBrowsers_step _ _ _ _ Hobj).
    cbv beta iota. rewrite (IH _ (insert_browser obj b)) by apply lookup_insert_eq.
    cbn [arrays objects console]. rewrite insert_insert_eq.
    cbn [duplicate_warnings]. rewrite app_nil_r, <- app_assoc. reflexivity.
Qed.

(** [addBrowsers] always returns; it changes the map and the console
    only. *)
Lemma addBrowsers_run (browserMap browsers : loc) (w : world) (obj : object) (l : list Browser.t) :
  arrays w !! browsers = Some l ->
  objects w !! browserMap = Some obj ->
  addBrowsers browserMap browsers w =
  (Returned tt,
   mkWorld (arrays w) (<[browserMap := insert_browsers obj l]> (objects w))
           (console w ++ duplicate_warnings obj l)).
Proof.
  intros Hl Hobj. unfold addBrowsers, Array_forEach, read_array.
  rewrite run_bind, Hl. by apply forEach_addBrowsers_run.
Qed.

Lemma In_slice_list {A : Type} (i j : Z) (l : list A) (x : A) :
  In x (slice_list i j l) -> In x l.
Proof.
  unfold slice_list. rewrite <- !list_elem_of_In.
  intros H. by apply subseteq_take, subseteq_drop in H.
Qed.

Lemma In_selection (catalog : list Browser.t) (spec : BrowserSpec.t) (b : Browser.t) :
  In b (selection catalog spec) -> In b catalog.
Proof.
  unfold selection, candidates.
  destruct (BrowserSpec.browser_version spec) as [value|versions|].
  - intros H%In_slice_list. rewrite <- list_elem_of_In in H.
    rewrite sort_list_Permutation in H. rewrite list_elem_of_In in H.
    by apply filter_In in H as [H _].
  - intros H. apply filter_In in H as [H _]. by apply filter_In in H as [H _].
  - intros H. by apply filter_In in H as [H _].
Qed.

Lemma In_replace_own (k : string) (v b : Browser.t) (props : list (string * Browser.t)) :
  In b (map snd (replace_own k v props)) -> b = v \/ In b (map snd props).
Proof.
  induction props as [|[k' v'] props IH]; simpl; [tauto|].
  destruct (String.eqb k k'); simpl; intuition.
Qed.

Lemma In_set_property (obj : object) (k : string) (v b : Browser.t) :
  In b (map snd (own (set_property obj k v))) -> b = v \/ In b (map snd (own obj)).
Proof.
  unfold set_property.
  destruct (mem k (map fst (own obj))); [apply In_replace_own|].
  destruct (String.eqb k "__proto__"); simpl; [tauto|].
  rewrite map_app, in_app_iff. simpl. intuition.
Qed.

Lemma In_insert_browsers (l : list Browser.t) (obj : object) (b : Browser.t) :
  In b (map snd (own (insert_browsers obj l))) -> In b l \/ In b (map snd (own obj)).
Proof.
  revert obj. induction l as [|x l IH]; intros obj; simpl; [tauto|].
  intros [H|H]%IH; [tauto|].
  apply In_set_property in H as [->|H]; tauto.
Qed.

Lemma Forall_diagnostic_fatal (headline : string) (spec : BrowserSpec.t) :
  Forall diagnostic (fatal headline spec).
Proof. unfold fatal. repeat apply Forall_cons_2; [right; eauto..|constructor]. Qed.

Lemma Forall_diagnostic_warnings (l : list Browser.t) (obj : object) :
  Forall diagnostic (duplicate_warnings obj l).
Proof.
  revert obj. induction l as [|b l IH]; intros obj; simpl; [constructor|].
  apply Forall_app. split; [|apply IH].
  destruct (has_property _ _); [|constructor].
  apply Forall_cons_2; [by left|constructor].
Qed.


Lemma forEach_keeps {A : Type} (I : world -> Prop) (xs : list A) (f : A -> M unit) :
  (forall x, keeps I (f x)) -> keeps I (forEach xs f).
Proof.
  intros Hf. induction xs as [|x xs IH]; intros w Hw.
  - simpl. split; [left; by exists tt|assumption].
  - rewrite forEach_run_cons. destruct (Hf x w Hw) as [Hout HI].
    destruct (f x w) as [[[]|status|] w']; simpl in *.
    + by apply IH.
    + destruct Hout as [[? [=]]|[= ->]]. split; [by right|assumption].
    + destruct Hout as [[? [=]]|[=]].
Qed.

Lemma matching_keeps (w0 : world) (a target : loc) (catalog : list Browser.t) (spec : BrowserSpec.t) :
  arrays w0 !! a = Some catalog ->
  keeps (aggregating w0 target catalog)
    (browsers ← getBrowsersThatMatchSpec a spec; addBrowsers target browsers).
Proof.
  intros Ha w (Harr & Hobjs & (obj & Hobj & Hown) & out & Hout & Hdiag).
  assert (Ha' : arrays w !! a = Some catalog) by (eapply lookup_weaken; eassumption).
  destruct (getBrowsersThatMatchSpec_run a spec w catalog Ha') as (w1 & Hsub & Hobjs1 & Hrun).
  rewrite run_bind.
  destruct (not_enough_versions catalog spec).
  { destruct Hrun as [-> Hcon]. simpl. split; [by right|].
    split; [by etrans|]. split; [by rewrite Hobjs1|].
    split; [exists obj; by rewrite Hobjs1|].
    eexists. rewrite Hcon, Hout, <- app_assoc. split; [reflexivity|].
    apply Forall_app. split; [assumption|apply Forall_diagnostic_fatal]. }
  pose proof (In_selection catalog spec) as Hsel.
  destruct (selection catalog spec) as [|b sel].
  { destruct Hrun as [-> Hcon]. simpl. split; [by right|].
    split; [by etrans|]. split; [by rewrite Hobjs1|].
    split; [exists obj; by rewrite Hobjs1|].
    eexists. rewrite Hcon, Hout, <- app_assoc. split; [reflexivity|].
    apply Forall_app. split; [assumption|apply Forall_diagnostic_fatal]. }
  destruct Hrun as (r & -> & Hr & _ & Hcon).
  assert (Hobj1 : objects w1 !! target = Some obj) by (by rewrite Hobjs1).
  rewrite (addBrowsers_run _ _ _ _ _ Hr Hobj1). cbn [fst snd].
  split; [left; by exists tt|]. unfold aggregating. cbn [arrays objects console].
  split; [by etrans|]. split.
  { intros o Ho. rewrite lookup_insert_ne by done. rewrite Hobjs1. by apply Hobjs. }
  split.
  { eexists. split; [apply lookup_insert_eq|]. apply Forall_forall.
    intros x [Hx|Hx]%list_elem_of_In%In_insert_browsers; [by apply Hsel|].
    rewrite Forall_forall in Hown. by apply Hown, list_elem_of_In. }
  eexists. rewrite Hcon, Hout, <- app_assoc. split; [reflexivity|].
  apply Forall_app. split; [assumption|apply Forall_diagnostic_warnings].
Qed.

(** What one call of [getTargetBrowsers] does. *)
Lemma getTargetBrowsers_run (a : loc) (aggregatedSpecs : list GroupedBrowserSpec.t)
    (w : world) (catalog : list Browser.t) :
  arrays w !! a = Some catalog ->
  exists w',
    arrays w ⊆ arrays w' /\ objects w ⊆ objects w' /\
    (exists out, console w' = console w ++ out /\ Forall diagnostic out) /\
    (getTargetBrowsers a aggregatedSpecs w = (Exited 1, w') \/
     exists r l, getTargetBrowsers a aggregatedSpecs w = (Returned r, w') /\
                 arrays w' !! r = Some l /\ arrays w !! r = None /\
                 Forall (fun b => In b catalog) l).
Proof.
  intros Ha. unfold getTargetBrowsers. rewrite run_bind. unfold new_object.
  cbv beta iota zeta.
  set (target := fresh (dom (objects w))).
  assert (Htarget : objects w !! target = None) by apply not_elem_of_dom, is_fresh.
  set (w1 := mkWorld _ _ _).
  assert (Hinit : aggregating w target catalog w1).
  { split; [done|]. split; [intros o Ho; by apply lookup_insert_ne|].
    split; [eexists; split; [apply lookup_insert_eq|constructor]|].
    exists []. by rewrite app_nil_r. }
  set (loop := forEach aggregatedSpecs _).
  assert (Hloop : keeps (aggregating w target catalog) loop).
  { apply forEach_keeps. intros aggregatedSpec. cbv zeta.
    apply forEach_keeps. intros spec. by apply matching_keeps. }
  destruct (Hloop w1 Hinit) as [Hout (Harr & Hobjs & (obj & Hobj & Hown) & out & Hcon & Hdiag)].
  assert (Hsubobj : objects w ⊆ objects (loop w1).2).
  { apply map_subseteq_spec. intros o x Ho. rewrite Hobjs; [assumption|]. congruence. }
  rewrite run_bind.
  destruct (loop w1) as [[[]|status|] w2]; simpl in *.
  - unfold Object_values. rewrite run_bind, (run_read_object _ _ _ Hobj).
    unfold new_array.
    assert (Hr : arrays w2 !! fresh (dom (arrays w2)) = None) by apply not_elem_of_dom, is_fresh.
    eexists. split; [|split; [|split; [|right; do 2 eexists; split; [reflexivity|]]]]; simpl.
    + etrans; [exact Harr|]. by apply insert_subseteq.
    + exact Hsubobj.
    + eauto.
    + split; [apply lookup_insert_eq|]. split; [|exact Hown].
      eapply lookup_weaken_None; eassumption.
  - destruct Hout as [[? [=]]|[= ->]].
    exists w2. split; [assumption|]. split; [assumption|]. split; [eauto|by left].
  - destruct Hout as [[? [=]]|[=]].
Qed.

(** ** Lists, filters and the map of the aggregator *)

Lemma slice_list_take {A : Type} (n : Z) (l : list A) :
  0 <= n -> slice_list 0 n l = take (Z.to_nat n) l.
Proof.
  intros Hn. unfold slice_list.
  assert (Hf : (n <? 0) = false) by (apply Z.ltb_ge; lia).
  rewrite Z.ltb_irrefl, Hf.
  rewrite (Z.min_l 0) by lia. rewrite Z.sub_0_r. change (Z.to_nat 0) with 0%nat.
  rewrite drop_0. destruct (Z.le_ge_cases n (Z.of_nat (length l))).
  - rewrite Z.min_l by lia. by rewrite Z.max_l by lia.
  - rewrite Z.min_r by lia. rewrite Z.max_l by lia.
    rewrite Nat2Z.id. rewrite !take_ge; [reflexivity|lia..].
Qed.

Lemma numeric_version_exec (s : string) :
  exec_stable_version s = true -> numeric_version (str s).
Proof. intros H. exists s. split; [reflexivity|]. by apply exec_stable_version_spec. Qed.

Lemma filter_filter {A : Type} (f g : A -> bool) (l : list A) :
  List.filter g (List.filter f l) = List.filter (fun x => f x && g x) l.
Proof.
  induction l as [|x l IH]; simpl; [reflexivity|].
  destruct (f x); simpl; [destruct (g x)|]; congruence.
Qed.

Lemma filter_ext_bool {A : Type} (f g : A -> bool) (l : list A) :
  (forall x, f x = true <-> g x = true) -> List.filter f l = List.filter g l.
Proof.
  intros H. apply List.filter_ext. intros x. specialize (H x).
  destruct (f x), (g x); intuition congruence.
Qed.

Lemma includes_spec (versions : list string) (v : value) :
  includes versions v = true <-> version_in versions v.
Proof.
  unfold includes, version_in. rewrite existsb_exists. split.
  - intros (s & Hin & Heq). destruct v as [| |t]; try discriminate.
    apply String.eqb_eq in Heq as ->. eauto.
  - intros (s & -> & Hin). exists s. split; [assumption|apply String.eqb_refl].
Qed.

Lemma mem_true (k : string) (ks : list string) : mem k ks = true <-> In k ks.
Proof.
  unfold mem. rewrite existsb_exists. split.
  - intros (k' & Hin & ->%String.eqb_eq). assumption.
  - intros Hin. exists k. split; [assumption|apply String.eqb_refl].
Qed.

Lemma own_lookup_None (k : string) (props : list (string * Browser.t)) :
  own_lookup k props = None <-> ~ In k (map fst props).
Proof.
  induction props as [|[k' v] props IH]; simpl; [tauto|].
  destruct (String.eqb_spec k k') as [->|Hne]; [split; [discriminate|tauto]|].
  rewrite IH. intuition congruence.
Qed.

Lemma map_fst_replace_own (k : string) (v : Browser.t) (props : list (string * Browser.t)) :
  map fst (replace_own k v props) = map fst props.
Proof.
  induction props as [|[k' v'] props IH]; simpl; [reflexivity|].
  destruct (String.eqb k k'); simpl; congruence.
Qed.

Lemma own_lookup_replace_own (k k' : string) (v : Browser.t) (props : list (string * Browser.t)) :
  own_lookup k' (replace_own k v props) =
  if String.eqb k' k then (if mem k (map fst props) then Some v else None)
  else own_lookup k' props.
Proof.
  induction props as [|[k0 v0] props IH]; simpl.
  - by destruct (String.eqb k' k).
  - destruct (String.eqb_spec k k0) as [->|Hne]; simpl.
    + destruct (String.eqb_spec k' k0) as [->|Hne']; reflexivity.
    + rewrite IH. destruct (String.eqb_spec k' k) as [->|Hne'].
      * destruct (String.eqb_spec k k0); [congruence|reflexivity].
      * reflexivity.
Qed.

Lemma own_lookup_app (k : string) (props props' : list (string * Browser.t)) :
  own_lookup k (props ++ props') =
  match own_lookup k props with Some v => Some v | None => own_lookup k props' end.
Proof.
  induction props as [|[k0 v0] props IH]; simpl; [reflexivity|].
  by destruct (String.eqb k k0).
Qed.

Lemma own_lookup_set_property (obj : object) (k k' : string) (v : Browser.t) :
  k <> "__proto__"%string ->
  own_lookup k' (own (set_property obj k v)) =
  if String.eqb k' k then Some v else own_lookup k' (own obj).
Proof.
  intros Hk. unfold set_property.
  destruct (mem k (map fst (own obj))) eqn:Hmem; cbn [own].
  - rewrite own_lookup_replace_own, Hmem. reflexivity.
  - destruct (String.eqb_spec k "__proto__") as [->|_]; [congruence|]. cbn [own].
    rewrite own_lookup_app. simpl.
    destruct (String.eqb_spec k' k) as [->|Hne].
    + assert (H : own_lookup k (own obj) = None).
      { apply own_lookup_None. rewrite <- mem_true. congruence. }
      by rewrite H.
    + by destruct (own_lookup k' (own obj)).
Qed.

Lemma own_lookup_set_property_proto (obj : object) (k' : string) (v : Browser.t) :
  is_Some (own_lookup k' (own obj)) ->
  is_Some (own_lookup k' (own (set_property obj "__proto__" v))).
Proof.
  intros Hsome. unfold set_property.
  destruct (mem "__proto__" (map fst (own obj))) eqn:Hmem; cbn [own]; [|assumption].
  rewrite own_lookup_replace_own, Hmem. by destruct (String.eqb k' "__proto__").
Qed.

Lemma NoDup_keys_set_property (obj : object) (k : string) (v : Browser.t) :
  List.NoDup (map fst (own obj)) -> List.NoDup (map fst (own (set_property obj k v))).
Proof.
  intros Hnd. unfold set_property.
  destruct (mem k (map fst (own obj))) eqn:Hmem; cbn [own].
  - by rewrite map_fst_replace_own.
  - destruct (String.eqb k "__proto__"); cbn [own]; [assumption|].
    rewrite map_app. simpl. apply NoDup_ListNoDup, NoDup_app.
    split; [by apply NoDup_ListNoDup|]. split; [|apply NoDup_singleton].
    intros k' Hin ->%list_elem_of_singleton.
    apply list_elem_of_In, mem_true in Hin. congruence.
Qed.

Lemma NoDup_keys_insert_browsers (l : list Browser.t) (obj : object) :
  List.NoDup (map fst (own obj)) -> List.NoDup (map fst (own (insert_browsers obj l))).
Proof.
  revert obj. induction l as [|b l IH]; intros obj Hnd; [assumption|].
  simpl. apply IH. by apply NoDup_keys_set_property.
Qed.

Lemma own_key_stays (l : list Browser.t) (obj : object) (k : string) :
  is_Some (own_lookup k (own obj)) ->
  is_Some (own_lookup k (own (insert_browsers obj l))).
Proof.
  revert obj. induction l as [|b l IH]; intros obj Hsome; [assumption|].
  simpl. apply IH. unfold insert_browser.
  destruct (String.eqb_spec (getBrowserId b) "__proto__") as [->|Hp].
  - by apply own_lookup_set_property_proto.
  - rewrite own_lookup_set_property by assumption.
    by destruct (String.eqb k (getBrowserId b)).
Qed.

(** With a key other than [__proto__] the last write wins and the map
    has one entry for the key. *)
Lemma last_write_wins (obj : object) (earlier later : list Browser.t) (b : Browser.t) :
  List.NoDup (map fst (own obj)) ->
  getBrowserId b <> "__proto__"%string ->
  (forall b', In b' later -> getBrowserId b' <> getBrowserId b) ->
  let final := insert_browsers obj (earlier ++ b :: later) in
  own_lookup (getBrowserId b) (own final) = Some b /\
  List.NoDup (map fst (own final)).
Proof.
  intros Hnd Hk Hlater final. split; [|by apply NoDup_keys_insert_browsers].
  unfold final, insert_browsers. rewrite foldl_app. cbn [foldl].
  set (obj1 := foldl insert_browser obj earlier).
  assert (H1 : own_lookup (getBrowserId b) (own (insert_browser obj1 b)) = Some b).
  { unfold insert_browser. rewrite own_lookup_set_property by assumption.
    by rewrite String.eqb_refl. }
  clearbody obj1. revert H1. generalize (insert_browser obj1 b). clear obj1 obj Hnd final.
  induction later as [|b' later IH]; intros obj H1; [assumption|].
  cbn [foldl]. apply IH; [intros; apply Hlater; by right|].
  unfold insert_browser at 1.
  destruct (String.eqb_spec (getBrowserId b') "__proto__") as [Hp|Hp].
  - rewrite Hp. unfold set_property.
    destruct (mem "__proto__" (map fst (own obj))) eqn:Hmem; cbn [own]; [|assumption].
    rewrite own_lookup_replace_own.
    destruct (String.eqb_spec (getBrowserId b) "__proto__"); [congruence|assumption].
  - rewrite own_lookup_set_property by assumption.
    destruct (String.eqb_spec (getBrowserId b) (getBrowserId b')) as [Heq|_]; [|assumption].
    exfalso. eapply Hlater; [by left|]. congruence.
Qed.

(** With a key other than [__proto__] the second insertion finds the key
    in the map, so it is reported. *)
Lemma collision_is_warned (obj : object) (earlier between : list Browser.t) (b1 b2 : Browser.t) :
  getBrowserId b1 = getBrowserId b2 ->
  getBrowserId b2 <> "__proto__"%string ->
  has_property (insert_browsers obj (earlier ++ b1 :: between)) (getBrowserId b2) = true.
Proof.
  intros Hid Hk. unfold has_property.
  apply orb_true_intro. left. apply orb_true_intro. left. apply mem_true.
  assert (Hsome : is_Some (own_lookup (getBrowserId b2)
                    (own (insert_browsers obj (earlier ++ b1 :: between))))).
  { unfold insert_browsers. rewrite foldl_app. cbn [foldl]. apply own_key_stays.
    unfold insert_browser at 1. rewrite own_lookup_set_property by congruence.
    rewrite Hid, String.eqb_refl. eauto. }
  destruct (own_lookup _ _) eqn:Hlook; [|by destruct Hsome].
  destruct (In_dec string_dec (getBrowserId b2)
              (map fst (own (insert_browsers obj (earlier ++ b1 :: between))))) as [?|Hn];
    [assumption|].
  apply own_lookup_None in Hn. congruence.
Qed.

(** * The claims of the design document *)

(** ** Matching *)

(** C1, as amended.  For every catalogue and every spec whose version
    constraint is [last N] with [N >= 1]: if at least [N] catalogue entries
    have the device, os, os_version and browser of the spec, and these
    candidates carry distinct numeric version strings, then
    [getBrowsersThatMatchSpec] returns [N] distinct candidates [l] such that
    [l], followed by the candidates left out, is the list of all candidates
    in descending order of [parseFloat] of the version: [l] is the [N]
    numerically highest, highest first. *)
Theorem last_n_takes_highest_versions (a : loc) (w : world) (catalog : list Browser.t)
    (spec : BrowserSpec.t) (value : string) :
  arrays w !! a = Some catalog ->
  BrowserSpec.browser_version spec = type_last value ->
  1 <= ToNumber_digits value <= Z.of_nat (length (candidates catalog spec)) ->
  Forall (fun b => numeric_version (Browser.browser_version b)) (candidates catalog spec) ->
  NoDup (map Browser.browser_version (candidates catalog spec)) ->
  exists l rest,
    returns_array (getBrowsersThatMatchSpec a spec) w l /\
    Z.of_nat (length l) = ToNumber_digits value /\
    l ++ rest ≡ₚ candidates catalog spec /\
    StronglySorted version_descending (l ++ rest) /\
    NoDup l.
Proof.
  intros Ha Hlast [Hn1 Hn2] Hnum Hdistinct.
  set (sorted := sort_list compare_versions (candidates catalog spec)).
  set (n := Z.to_nat (ToNumber_digits value)).
  assert (Hperm : sorted ≡ₚ candidates catalog spec) by apply sort_list_Permutation.
  assert (Hlen : length sorted = length (candidates catalog spec)) by by rewrite Hperm.
  exists (take n sorted), (drop n sorted).
  destruct (getBrowsersThatMatchSpec_run a spec w catalog Ha) as (w' & _ & _ & Hrun).
  unfold not_enough_versions, selection in Hrun. rewrite Hlast in Hrun.
  rewrite (proj2 (Z.ltb_ge _ _)) in Hrun by lia.
  rewrite slice_list_take in Hrun by lia. fold sorted n in Hrun.
  assert (Htake : length (take n sorted) = n) by (rewrite length_take; lia).
  split.
  { destruct (take n sorted) as [|b l] eqn:Hsel; [simpl in Htake; lia|].
    destruct Hrun as (r & Hrun & Hr & _). by exists r, w'. }
  split; [lia|]. rewrite take_drop. split; [assumption|]. split.
  - apply sort_versions_StronglySorted.
    eapply Forall_impl; [exact Hnum|]. intros b. apply numeric_version_not_NaN.
  - apply (NoDup_fmap_1 Browser.browser_version) in Hdistinct.
    rewrite <- Hperm in Hdistinct. rewrite <- (take_drop n sorted) in Hdistinct.
    by apply NoDup_app in Hdistinct as [H _].
Qed.

(** "last 2" against the five Chrome versions of the sample catalogue. *)
Lemma last_n_takes_highest_versions_witness :
  exists l rest,
    returns_array (getBrowsersThatMatchSpec 1%positive (chrome_spec (str "last 2"))) sample_world l /\
    Z.of_nat (length l) = ToNumber_digits "2" /\
    l ++ rest ≡ₚ candidates sample_catalog (chrome_spec (str "last 2")) /\
    StronglySorted version_descending (l ++ rest) /\
    NoDup l.
Proof.
  apply (last_n_takes_highest_versions 1%positive sample_world sample_catalog
           (chrome_spec (str "last 2")) "2").
  - reflexivity.
  - reflexivity.
  - vm_compute. split; discriminate.
  - repeat constructor; apply numeric_version_exec; reflexivity.
  - apply (bool_decide_unpack _). vm_compute. exact I.
Defined.

(** The design document's own example: "last 2" against five distinct
    numeric versions gives the two highest. *)
Example last_2_of_5 :
  returns_array (getBrowsersThatMatchSpec 1%positive (chrome_spec (str "last 2"))) sample_world
    [chrome (str "62.0"); chrome (str "61.0")].
Proof. eexists _, _. split; [vm_compute; reflexivity|reflexivity]. Qed.

(** C1 as stated fails for [N = 0]: "last 0" with one numeric candidate
    satisfies every hypothesis of the claim, yet the call does not return
    the empty list, it ends the process with status 1. *)
Lemma last_0_exits :
  let catalog := [chrome (str "10")] in
  let w := mkWorld {[ 1%positive := catalog ]} ∅ [] in
  let spec := chrome_spec (str "last 0") in
  BrowserSpec.browser_version spec = type_last "0" /\
  0 <= ToNumber_digits "0" <= Z.of_nat (length (candidates catalog spec)) /\
  Forall (fun b => numeric_version (Browser.browser_version b)) (candidates catalog spec) /\
  NoDup (map Browser.browser_version (candidates catalog spec)) /\
  exits (getBrowsersThatMatchSpec 1%positive spec) w 1
        (fatal "No browsers available for the following spec:" spec) /\
  ~ exists l, returns_array (getBrowsersThatMatchSpec 1%positive spec) w l.
Proof.
  cbv zeta. split; [reflexivity|]. split; [vm_compute; split; discriminate|].
  split; [repeat constructor; apply numeric_version_exec; reflexivity|].
  split; [apply (bool_decide_unpack _); vm_compute; exact I|].
  split.
  - eexists. split; [vm_compute; reflexivity|reflexivity].
  - intros (l & r & w' & H & _). vm_compute in H. discriminate H.
Qed.

(** C2.  [getBrowsersThatMatchSpec] ends the process with status 1, having
    written the JSON of the spec with [console.error], if and only if the
    constraint is [last N] with fewer than [N] candidates, or nothing is
    left after the filtering of step 2, whatever the kind of constraint; in
    every other case it returns an array, and it never exits with another
    status. *)
Theorem fatal_exit_iff (a : loc) (w : world) (catalog : list Browser.t) (spec : BrowserSpec.t) :
  arrays w !! a = Some catalog ->
  let m := getBrowsersThatMatchSpec a spec in
  let too_few :=
    exists value, BrowserSpec.browser_version spec = type_last value /\
                  Z.of_nat (length (candidates catalog spec)) < ToNumber_digits value in
  let nothing_left := selection catalog spec = [] in
  (too_few \/ nothing_left <->
   exists out, exits m w 1 out /\ In (console_error (JSON_stringify spec)) out) /\
  (~ (too_few \/ nothing_left) <-> exists l, returns_array m w l) /\
  (forall status out, exits m w status out -> status = 1).
Proof.
  intros Ha m too_few nothing_left.
  destruct (getBrowsersThatMatchSpec_run a spec w catalog Ha) as (w' & _ & _ & Hrun).
  fold m in Hrun.
  assert (Hfew : not_enough_versions catalog spec = true <-> too_few).
  { unfold not_enough_versions, too_few.
    destruct (BrowserSpec.browser_version spec) as [value| |].
    - rewrite Z.ltb_lt. split; [eauto|]. by intros (? & [= <-] & ?).
    - split; [discriminate|]. by intros (? & [=] & _).
    - split; [discriminate|]. by intros (? & [=] & _). }
  assert (Hcases :
    ((too_few \/ nothing_left) /\
     exists out, exits m w 1 out /\ In (console_error (JSON_stringify spec)) out) \/
    (~ (too_few \/ nothing_left) /\ exists l, returns_array m w l)).
  { destruct (not_enough_versions catalog spec) eqn:Hne.
    - left. split; [left; by apply Hfew|].
      destruct Hrun as [Hrun Hcon]. eexists. split; [by exists w'|]. simpl. auto.
    - assert (~ too_few) by (rewrite <- Hfew; congruence).
      unfold nothing_left. destruct (selection catalog spec) as [|b l].
      + left. split; [by right|].
        destruct Hrun as [Hrun Hcon]. eexists. split; [by exists w'|]. simpl. auto.
      + right. split; [intros [?|?]; [tauto|discriminate]|].
        destruct Hrun as (r & Hrun & Hr & _). by exists (b :: l), r, w'. }
  destruct Hcases as [[Hcond (out & Hexit & Hjson)]|[Hcond (l & Hret)]].
  - split; [split; eauto|]. split.
    + split; [tauto|]. intros (l & Hret). destruct Hexit as (w1 & H1 & _).
      destruct Hret as (r & w2 & H2 & _). congruence.
    + intros status out' (w2 & H2 & _). destruct Hexit as (w1 & H1 & _). congruence.
  - split.
    + split; [tauto|]. intros (out & (w1 & H1 & _) & _).
      destruct Hret as (r & w2 & H2 & _). congruence.
    + split; [split; eauto|]. intros status out (w1 & H1 & _).
      destruct Hret as (r & w2 & H2 & _). congruence.
Qed.

(** "last 7" against the five Chrome versions of the sample catalogue. *)
Lemma fatal_exit_iff_witness :
  let m := getBrowsersThatMatchSpec 1%positive (chrome_spec (str "last 7")) in
  exists out, exits m sample_world 1 out /\
              In (console_error (JSON_stringify (chrome_spec (str "last 7")))) out.
Proof.
  apply (fatal_exit_iff 1%positive sample_world sample_catalog (chrome_spec (str "last 7"))).
  - reflexivity.
  - left. exists "7"%string. split; [reflexivity|]. vm_compute. reflexivity.
Defined.

(** C3.  [parseBrowserVersion] maps an absent, [null] or empty version to
    [no-version]; a string in which the literal "last " followed by an
    integer occurs to [last] with the digits of the leftmost occurrence;
    and every other non-empty string to [list] with the pieces between the
    commas of the string, untrimmed: joined by commas they give the string
    back, and no piece holds a comma. *)
Theorem parseBrowserVersion_cases (version : value) :
  (no_version_field version \/ version = str EmptyString ->
   parseBrowserVersion version = type_no_version) /\
  (forall s, version = str s -> matches_last_pattern s ->
     exists pre ds,
       last_pattern_at s pre ds /\
       (forall pre' ds', last_pattern_at s pre' ds' ->
          (String.length pre <= String.length pre')%nat) /\
       parseBrowserVersion version = type_last ds) /\
  (forall s, version = str s -> s <> EmptyString -> ~ matches_last_pattern s ->
     exists pieces,
       parseBrowserVersion version = type_list pieces /\
       join "," pieces = s /\ Forall no_comma pieces).
Proof.
  split; [|split].
  - intros [[->| ->]| ->]; reflexivity.
  - intros s -> Hmatch. unfold parseBrowserVersion.
    assert (Htruthy : truthy (str s) = true).
    { destruct s; [|reflexivity]. destruct Hmatch as (pre & ds & Hat).
      by apply last_pattern_at_empty in Hat. }
    rewrite Htruthy. cbn [ToString].
    destruct (exec_last s) as [ds|] eqn:Hexec.
    + destruct (exec_last_Some _ _ Hexec) as (pre & Hat & Hmin). by exists pre, ds.
    + by apply exec_last_None in Hexec.
  - intros s -> Hne Hnomatch. unfold parseBrowserVersion.
    assert (Htruthy : truthy (str s) = true) by (by destruct s).
    rewrite Htruthy. cbn [ToString].
    destruct (exec_last s) as [ds|] eqn:Hexec.
    + destruct (exec_last_Some _ _ Hexec) as (pre & Hat & _).
      exfalso. apply Hnomatch. by exists pre, ds.
    + exists (split_comma s). split; [reflexivity|apply split_comma_spec].
Qed.

(** An absent version, "last 2" and "9,10". *)
Lemma parseBrowserVersion_cases_witness :
  parseBrowserVersion undefined = type_no_version /\
  (exists pre ds, last_pattern_at "last 2" pre ds /\
     (forall pre' ds', last_pattern_at "last 2" pre' ds' ->
        (String.length pre <= String.length pre')%nat) /\
     parseBrowserVersion (str "last 2") = type_last ds) /\
  (exists pieces, parseBrowserVersion (str "9,10") = type_list pieces /\
     join "," pieces = "9,10"%string /\ Forall no_comma pieces).
Proof.
  split; [|split].
  - apply (parseBrowserVersion_cases undefined). left. by left.
  - apply (parseBrowserVersion_cases (str "last 2")); [reflexivity|].
    exists EmptyString, "2"%string. apply match_last_here_spec. reflexivity.
  - apply (parseBrowserVersion_cases (str "9,10")); [reflexivity|discriminate|].
    intros Hmatch. 
    assert (H : exec_last "9,10" = None) by reflexivity.
    by apply exec_last_None in H.
Defined.

(** C4, as amended.  For every catalogue and every spec whose constraint is
    a list of versions: if at least one catalogue entry has the device, os,
    os_version and browser of the spec and a version string that is a
    member of the list, then [getBrowsersThatMatchSpec] returns exactly the
    entries of that kind, in catalogue order.  [keep] is any decision
    procedure for "that kind". *)
Theorem exact_list_selects_members (a : loc) (w : world) (catalog : list Browser.t)
    (spec : BrowserSpec.t) (versions : list string) (keep : Browser.t -> bool) :
  arrays w !! a = Some catalog ->
  BrowserSpec.browser_version spec = type_list versions ->
  (forall b, keep b = true <->
             same_group spec b = true /\ version_in versions (Browser.browser_version b)) ->
  List.filter keep catalog <> [] ->
  returns_array (getBrowsersThatMatchSpec a spec) w (List.filter keep catalog).
Proof.
  intros Ha Hlist Hkeep Hne.
  destruct (getBrowsersThatMatchSpec_run a spec w catalog Ha) as (w' & _ & _ & Hrun).
  unfold not_enough_versions, selection, candidates in Hrun. rewrite Hlist in Hrun.
  rewrite filter_filter in Hrun.
  rewrite (filter_ext_bool _ keep) in Hrun.
  - destruct (List.filter keep catalog) as [|b l]; [congruence|].
    destruct Hrun as (r & Hrun & Hr & _). by exists r, w'.
  - intros b. rewrite Hkeep, andb_true_iff, includes_spec. reflexivity.
Qed.

(** "9,10" against the sample catalogue: the entries with version "9" and
    "10" and no other. *)
Lemma exact_list_selects_members_witness :
  returns_array (getBrowsersThatMatchSpec 1%positive (chrome_spec (str "9,10"))) sample_world
    [chrome (str "9"); chrome (str "10")].
Proof.
  apply (exact_list_selects_members 1%positive sample_world sample_catalog
           (chrome_spec (str "9,10")) ["9"; "10"]%string
           (fun b => same_group (chrome_spec (str "9,10")) b &&
                     includes ["9"; "10"]%string (Browser.browser_version b))).
  - reflexivity.
  - reflexivity.
  - intros b. by rewrite andb_true_iff, includes_spec.
  - discriminate.
Defined.

(** C4 as stated fails where no entry qualifies: the call does not return
    the empty set of qualifying entries, it ends the process with status
    1. *)
Lemma exact_list_no_member_exits :
  let w := mkWorld {[ 1%positive := [chrome (str "60.0")] ]} ∅ [] in
  let spec := chrome_spec (str "9,10") in
  BrowserSpec.browser_version spec = type_list ["9"; "10"]%string /\
  (forall b, In b [chrome (str "60.0")] ->
     ~ (same_group spec b = true /\
        version_in ["9"; "10"]%string (Browser.browser_version b))) /\
  ~ returns_array (getBrowsersThatMatchSpec 1%positive spec) w [] /\
  exits (getBrowsersThatMatchSpec 1%positive spec) w 1
        (fatal "No browsers available for the following spec:" spec).
Proof.
  cbv zeta. split; [reflexivity|]. split.
  { intros b [<-|[]] [_ Hin]. apply includes_spec in Hin. discriminate Hin. }
  split.
  - intros (r & w' & H & _). vm_compute in H. discriminate H.
  - eexists. split; [vm_compute; reflexivity|reflexivity].
Qed.

(** C5.  For every catalogue and every spec without a version constraint,
    [getBrowsersThatMatchSpec] returns all the entries that have the device,
    os, os_version and browser of the spec, whatever their version, given
    that there is one; with none, the empty-result fatal error applies. *)
Theorem no_version_returns_all_candidates (a : loc) (w : world) (catalog : list Browser.t)
    (spec : BrowserSpec.t) :
  arrays w !! a = Some catalog ->
  BrowserSpec.browser_version spec = type_no_version ->
  (candidates catalog spec <> [] ->
   returns_array (getBrowsersThatMatchSpec a spec) w (candidates catalog spec)) /\
  (candidates catalog spec = [] ->
   exits (getBrowsersThatMatchSpec a spec) w 1
         (fatal "No browsers available for the following spec:" spec)).
Proof.
  intros Ha Hnone.
  destruct (getBrowsersThatMatchSpec_run a spec w catalog Ha) as (w' & _ & _ & Hrun).
  unfold not_enough_versions, selection in Hrun. rewrite Hnone in Hrun.
  destruct (candidates catalog spec) as [|b l]; split; try congruence.
  - intros _. destruct Hrun as [Hrun Hcon]. by exists w'.
  - intros _. destruct Hrun as (r & Hrun & Hr & _). by exists r, w'.
Qed.

(** A Chrome spec without version against the sample catalogue. *)
Lemma no_version_returns_all_candidates_witness :
  returns_array (getBrowsersThatMatchSpec 1%positive (chrome_spec undefined)) sample_world
    [chrome (str "60.0"); chrome (str "9"); chrome (str "62.0");
     chrome (str "10"); chrome (str "61.0")].
Proof.
  apply (no_version_returns_all_candidates 1%positive sample_world sample_catalog
           (chrome_spec undefined)).
  - reflexivity.
  - reflexivity.
  - discriminate.
Defined.

(** ** Aggregation *)

(** C6 at the key [__proto__].  Two different records with the identity key
    [__proto__] are inserted into an empty map.  Both insertions are
    reported as duplicates, the first one too, and neither is stored: the
    assignment runs the [__proto__] setter inherited from
    [Object.prototype], the map is left without any entry, and
    [Object.values] of it is empty. *)
Lemma proto_key_is_not_stored :
  let b1 := Browser.mk null null (str "proto") null null in
  let b2 := Browser.mk (str "") null (str "proto") null null in
  let w := mkWorld {[ 1%positive := [b1; b2] ]} {[ 1%positive := mkObject [] None ]} [] in
  b1 <> b2 /\
  getBrowserId b1 = "__proto__"%string /\ getBrowserId b2 = "__proto__"%string /\
  exists w',
    addBrowsers 1%positive 1%positive w = (Returned tt, w') /\
    objects w' !! 1%positive = Some (mkObject [] (Some b2)) /\
    console w' = [console_warn (text "duplicate browser");
                  console_warn (text "duplicate browser")] /\
    returns_array (Object_values 1%positive) w' [].
Proof.
  cbv zeta. split; [discriminate|]. split; [reflexivity|]. split; [reflexivity|].
  eexists. split; [vm_compute; reflexivity|]. split; [reflexivity|]. split; [reflexivity|].
  eexists _, _. split; [vm_compute; reflexivity|reflexivity].
Qed.

(** The same through [getTargetBrowsers]: the only entry of the catalogue
    is matched, reported as a duplicate, and missing from the target
    list. *)
Example proto_browser_is_dropped :
  let b := Browser.mk null null (str "proto") null null in
  let w := mkWorld {[ 1%positive := [b] ]} ∅ [] in
  let specs := [GroupedBrowserSpec.mk undefined undefined undefined
                  [BrowserEntry.mk (str "proto") undefined]] in
  exists r w',
    getTargetBrowsers 1%positive specs w = (Returned r, w') /\
    arrays w' !! r = Some [] /\
    console w' = [console_warn (text "duplicate browser")].
Proof.
  cbv zeta. eexists _, _. split; [vm_compute; reflexivity|]. split; reflexivity.
Qed.

(** ** The catalogue *)

(** C7, as amended.  [loadAvailableBrowsers] retains a fetched entry if and
    only if its browser_version is absent, [null] or the empty string, or is
    a string of the form integer, optionally followed by a dot and an
    integer, with nothing before or after; the retained entries are
    unchanged and in their original order.  [keep] is any decision procedure
    for that condition. *)
Theorem loadAvailableBrowsers_keeps_stable (a : loc) (w : world) (fetched : list Browser.t)
    (keep : Browser.t -> bool) :
  arrays w !! a = Some fetched ->
  (forall b, keep b = true <->
             no_version_field (Browser.browser_version b) \/
             Browser.browser_version b = str EmptyString \/
             numeric_version (Browser.browser_version b)) ->
  returns_array (loadAvailableBrowsers a) w (List.filter keep fetched).
Proof.
  intros Ha Hkeep. unfold loadAvailableBrowsers.
  rewrite (filter_ext_bool keep
    (fun browser =>
       negb (truthy (Browser.browser_version browser)) ||
       (truthy (Browser.browser_version browser) &&
        exec_stable_version (ToString (Browser.browser_version browser))))).
  - eexists _, _. rewrite (run_Array_filter _ _ _ _ Ha).
    split; [reflexivity|]. apply lookup_insert_eq.
  - intros b. rewrite Hkeep. unfold no_version_field, numeric_version.
    destruct (Browser.browser_version b) as [| |s]; simpl.
    + intuition.
    + intuition.
    + destruct s as [|c s]; simpl; [intuition|].
      rewrite exec_stable_version_spec. split.
      * intros [[|]|[|(s' & [= <-] & H)]]; congruence.
      * intros H. right. right. eauto.
Qed.

(** Stable, beta, missing and dev versions. *)
Lemma loadAvailableBrowsers_keeps_stable_witness :
  returns_array (loadAvailableBrowsers 1%positive)
    (mkWorld {[ 1%positive := sample_fetched ]} ∅ [])
    [chrome (str "62.0"); chrome null; chrome (str "64")].
Proof.
  apply (loadAvailableBrowsers_keeps_stable 1%positive
           (mkWorld {[ 1%positive := sample_fetched ]} ∅ []) sample_fetched
           (fun b => match Browser.browser_version b with
                     | str s => String.eqb s "" || exec_stable_version s
                     | _ => true
                     end)).
  - reflexivity.
  - intros b. unfold no_version_field, numeric_version.
    destruct (Browser.browser_version b) as [| |s]; [intuition..|].
    rewrite orb_true_iff, String.eqb_eq, exec_stable_version_spec. split.
    + intros [->|H]; eauto.
    + intros [[|]|[[= ->]|(s' & [= <-] & H)]]; try discriminate; auto.
Defined.

(** C7 as stated fails for the empty version string: the entry is
    retained although its browser_version is present and does not match the
    pattern. *)
Lemma empty_version_is_retained :
  let b := chrome (str EmptyString) in
  let w := mkWorld {[ 1%positive := [b] ]} ∅ [] in
  returns_array (loadAvailableBrowsers 1%positive) w [b] /\
  ~ (no_version_field (Browser.browser_version b) \/
     numeric_version (Browser.browser_version b)).
Proof.
  cbv zeta. split.
  - eexists _, _. split; [vm_compute; reflexivity|reflexivity].
  - intros [[H|H]|(s & [= <-] & H)]; try discriminate H.
    apply exec_stable_version_spec in H. discriminate H.
Qed.

(** C8.  [getTargetBrowsers] does not modify its [availableBrowsers] input:
    whether the call returns or exits, the catalogue array holds the same
    records in the same order afterwards; so does every other array and
    every object that existed before, and the console has only grown, by
    duplicate warnings and fatal-error messages.  The call always ends, by
    returning or by [process.exit]. *)
Theorem getTargetBrowsers_leaves_catalog (a : loc) (aggregatedSpecs : list GroupedBrowserSpec.t)
    (w : world) (catalog : list Browser.t) :
  arrays w !! a = Some catalog ->
  exists o w',
    getTargetBrowsers a aggregatedSpecs w = (o, w') /\ o <> Fault /\
    arrays w' !! a = Some catalog /\
    arrays w ⊆ arrays w' /\ objects w ⊆ objects w' /\
    exists out, console w' = console w ++ out /\ Forall diagnostic out.
Proof.
  intros Ha.
  destruct (getTargetBrowsers_run a aggregatedSpecs w catalog Ha)
    as (w' & Harr & Hobj & Hout & [Hrun|(r & l & Hrun & _)]).
  - exists (Exited 1), w'. split; [assumption|]. split; [discriminate|].
    split; [by eapply lookup_weaken|]. auto.
  - exists (Returned r), w'. split; [assumption|]. split; [discriminate|].
    split; [by eapply lookup_weaken|]. auto.
Qed.

(** The sample spec file against the sample catalogue. *)
Lemma getTargetBrowsers_leaves_catalog_witness :
  exists o w',
    getTargetBrowsers 1%positive sample_specs sample_world = (o, w') /\ o <> Fault /\
    arrays w' !! 1%positive = Some sample_catalog /\
    arrays sample_world ⊆ arrays w' /\ objects sample_world ⊆ objects w' /\
    exists out, console w' = console sample_world ++ out /\ Forall diagnostic out.
Proof.
  apply (getTargetBrowsers_leaves_catalog 1%positive sample_specs sample_world sample_catalog).
  reflexivity.
Defined.

(** C9.  Whenever [getTargetBrowsers] returns, every element of the target
    list is an element of the catalogue it was given. *)
Theorem targets_come_from_catalog (a : loc) (aggregatedSpecs : list GroupedBrowserSpec.t)
    (w : world) (catalog : list Browser.t) (r : loc) (w' : world) :
  arrays w !! a = Some catalog ->
  getTargetBrowsers a aggregatedSpecs w = (Returned r, w') ->
  exists l, arrays w' !! r = Some l /\ forall b, In b l -> In b catalog.
Proof.
  intros Ha Hrun.
  destruct (getTargetBrowsers_run a aggregatedSpecs w catalog Ha)
    as (w1 & _ & _ & _ & [Hrun1|(r1 & l & Hrun1 & Hl & _ & Hin)]); [congruence|].
  rewrite Hrun in Hrun1. injection Hrun1 as <- <-.
  exists l. split; [assumption|]. by apply List.Forall_forall.
Qed.

(** The sample spec file against the sample catalogue. *)
Lemma targets_come_from_catalog_witness :
  exists l,
    arrays (getTargetBrowsers 1%positive sample_specs sample_world).2 !! 7%positive = Some l /\
    forall b, In b l -> In b sample_catalog.
Proof.
  apply (targets_come_from_catalog 1%positive sample_specs sample_world sample_catalog).
  - reflexivity.
  - vm_compute. reflexivity.
Defined.

(** C10.  [getBrowserId] is not injective: two different records whose
    field values contain underscores have the same key, and when both are
    matched the target list holds the later one only, with one duplicate
    warning and no fatal error. *)
Theorem getBrowserId_not_injective :
  exists b1 b2 : Browser.t,
    b1 <> b2 /\
    (exists s t, Browser.os b1 = str s /\ In "_"%char (list_ascii_of_string s) /\
                 Browser.os_version b2 = str t /\ In "_"%char (list_ascii_of_string t)) /\
    getBrowserId b1 = getBrowserId b2 /\
    let w := mkWorld {[ 1%positive := [b1; b2] ]} ∅ [] in
    let group (b : Browser.t) :=
      GroupedBrowserSpec.mk (Browser.device b) (Browser.os b) (Browser.os_version b)
        [BrowserEntry.mk (Browser.browser b) (Browser.browser_version b)] in
    exists r w',
      getTargetBrowsers 1%positive [group b1; group b2] w = (Returned r, w') /\
      arrays w' !! r = Some [b2] /\
      console w' = [console_warn (text "duplicate browser")].
Proof.
  exists (Browser.mk (str "OS_X") (str "Sierra") (str "safari") (str "10.1") null),
         (Browser.mk (str "OS") (str "X_Sierra") (str "safari") (str "10.1") null).
  split; [discriminate|]. split.
  { exists "OS_X"%string, "X_Sierra"%string. simpl. tauto. }
  split; [reflexivity|]. cbv zeta.
  eexists _, _. split; [vm_compute; reflexivity|]. split; reflexivity.
Qed.

(** * The aggregation as a fold *)

Lemma forEach_app {A : Type} (xs ys : list A) (f : A -> M unit) (w : world) :
  forEach (xs ++ ys) f w = (forEach xs f ;; forEach ys f) w.
Proof.
  revert w. induction xs as [|x xs IH]; intros w; [reflexivity|].
  rewrite <- app_comm_cons, forEach_run_cons, run_bind, forEach_run_cons.
  destruct (f x w) as [[[]|status|] w']; [|reflexivity..].
  by rewrite IH, run_bind.
Qed.

Lemma forEach_concat {A B : Type} (h : A -> list B) (xs : list A) (f : B -> M unit) (w : world) :
  forEach xs (fun x => forEach (h x) f) w = forEach (List.concat (map h xs)) f w.
Proof.
  revert w. induction xs as [|x xs IH]; intros w; [reflexivity|].
  cbn [map List.concat]. rewrite forEach_app, forEach_run_cons, run_bind.
  destruct (forEach (h x) f w) as [[[]|status|] w']; [|reflexivity..]. apply IH.
Qed.

Lemma insert_browsers_app (obj : object) (l1 l2 : list Browser.t) :
  insert_browsers obj (l1 ++ l2) = insert_browsers (insert_browsers obj l1) l2.
Proof. apply foldl_app. Qed.

Lemma duplicate_warnings_app (l1 l2 : list Browser.t) (obj : object) :
  duplicate_warnings obj (l1 ++ l2) =
  duplicate_warnings obj l1 ++ duplicate_warnings (insert_browsers obj l1) l2.
Proof.
  revert obj. induction l1 as [|b l1 IH]; intros obj; [reflexivity|].
  cbn [app duplicate_warnings]. rewrite IH, <- app_assoc. reflexivity.
Qed.

(** The loop of [getTargetBrowsers] over the resolved specs, in terms of
    the catalogue: it hands the selections to the map one after the other
    and stops at the first spec that is not satisfiable. *)
Lemma matching_loop_run (a target : loc) (catalog : list Browser.t)
    (specs : list BrowserSpec.t) (w : world) (obj : object) :
  arrays w !! a = Some catalog ->
  objects w !! target = Some obj ->
  exists w',
    arrays w ⊆ arrays w' /\
    objects w' = <[target := insert_browsers obj (matched_until_failure catalog specs).1]> (objects w) /\
    match (matched_until_failure catalog specs).2 with
    | None =>
        forEach specs (fun spec =>
          browsers ← getBrowsersThatMatchSpec a spec; addBrowsers target browsers) w
        = (Returned tt, w') /\
        console w' = console w ++ duplicate_warnings obj (matched_until_failure catalog specs).1
    | Some spec =>
        forEach specs (fun spec =>
          browsers ← getBrowsersThatMatchSpec a spec; addBrowsers target browsers) w
        = (Exited 1, w') /\
        console w' = console w ++
          duplicate_warnings obj (matched_until_failure catalog specs).1 ++
          fatal (fatal_headline catalog spec) spec
    end.
Proof.
  revert w obj. induction specs as [|spec specs IH]; intros w obj Ha Hobj.
  - exists w. cbn. split; [done|]. split; [by rewrite insert_id|].
    split; [reflexivity|by rewrite app_nil_r].
  - rewrite forEach_run_cons, run_bind. cbn [matched_until_failure].
    destruct (getBrowsersThatMatchSpec_run a spec w catalog Ha) as (w1 & Hsub1 & Hobjs1 & Hrun).
    unfold satisfiable.
    destruct (not_enough_versions catalog spec) eqn:Hne; cbn [negb andb fst snd].
    { destruct Hrun as [-> Hcon]. exists w1. split; [assumption|].
      split; [by rewrite Hobjs1, insert_id|]. split; [reflexivity|].
      unfold fatal_headline. by rewrite Hne. }
    destruct (selection catalog spec) as [|b sel] eqn:Hsel.
    { destruct Hrun as [-> Hcon]. exists w1. split; [assumption|].
      split; [by rewrite Hobjs1, insert_id|]. split; [reflexivity|].
      unfold fatal_headline. by rewrite Hne. }
    destruct Hrun as (r & -> & Hr & _ & Hcon).
    assert (Hobj1 : objects w1 !! target = Some obj) by (by rewrite Hobjs1).
    rewrite (addBrowsers_run _ _ _ _ _ Hr Hobj1).
    set (w2 := mkWorld _ _ _).
    assert (Ha2 : arrays w2 !! a = Some catalog) by (by eapply lookup_weaken).
    assert (Hobj2 : objects w2 !! target = Some (insert_browsers obj (b :: sel)))
      by apply lookup_insert_eq.
    destruct (IH w2 _ Ha2 Hobj2) as (w' & Hsub & Hobjs & Hloop).
    destruct (matched_until_failure catalog specs) as [bs failure]. cbn [fst snd] in *.
    exists w'. split; [by etrans|]. split.
    { rewrite Hobjs. unfold w2. cbn [objects]. rewrite insert_insert_eq, Hobjs1.
      by rewrite insert_browsers_app. }
    destruct failure as [failing|]; destruct Hloop as [-> Hcon']; (split; [reflexivity|]);
      rewrite Hcon'; unfold w2; cbn [console]; rewrite Hcon, duplicate_warnings_app, <- !app_assoc;
      reflexivity.
Qed.

(** [getTargetBrowsers] as a fold over the resolved specs. *)
Lemma getTargetBrowsers_fold (a : loc) (aggregatedSpecs : list GroupedBrowserSpec.t)
    (w : world) (catalog : list Browser.t) :
  arrays w !! a = Some catalog ->
  let matched := (matched_until_failure catalog (resolved_specs aggregatedSpecs)).1 in
  match (matched_until_failure catalog (resolved_specs aggregatedSpecs)).2 with
  | None =>
      exists r w',
        getTargetBrowsers a aggregatedSpecs w = (Returned r, w') /\
        arrays w' !! r = Some (map snd (own (insert_browsers (mkObject [] None) matched))) /\
        console w' = console w ++ duplicate_warnings (mkObject [] None) matched
  | Some spec =>
      exits (getTargetBrowsers a aggregatedSpecs) w 1
        (duplicate_warnings (mkObject [] None) matched ++
         fatal (fatal_headline catalog spec) spec)
  end.
Proof.
  intros Ha matched. unfold exits, getTargetBrowsers. rewrite run_bind. unfold new_object.
  cbv beta iota zeta.
  set (target := fresh (dom (objects w))).
  set (w1 := mkWorld _ _ _).
  assert (Hobj1 : objects w1 !! target = Some (mkObject [] None)) by apply lookup_insert_eq.
  set (loop := forEach aggregatedSpecs _).
  assert (Hflat : loop w1 =
    forEach (resolved_specs aggregatedSpecs)
      (fun spec => browsers ← getBrowsersThatMatchSpec a spec; addBrowsers target browsers) w1)
    by apply (forEach_concat resolve_group).
  destruct (matching_loop_run a target catalog (resolved_specs aggregatedSpecs) w1 _ Ha Hobj1)
    as (w2 & Hsub & Hobjs & Hloop).
  fold matched in Hobjs, Hloop.
  rewrite run_bind, Hflat.
  destruct (matched_until_failure catalog (resolved_specs aggregatedSpecs)).2 as [failing|].
  - destruct Hloop as [-> Hcon]. by exists w2.
  - destruct Hloop as [-> Hcon].
    assert (Hobj2 : objects w2 !! target = Some (insert_browsers (mkObject [] None) matched)).
    { rewrite Hobjs. apply lookup_insert_eq. }
    unfold Object_values. rewrite run_bind, (run_read_object _ _ _ Hobj2). unfold new_array.
    eexists _, _. split; [reflexivity|]. cbn [arrays console]. split; [apply lookup_insert_eq|].
    exact Hcon.
Qed.

(** * The target map *)





Lemma well_keyed_replace_own (b : Browser.t) (props : list (string * Browser.t)) :
  Forall (fun kv => fst kv = getBrowserId (snd kv)) props ->
  Forall (fun kv => fst kv = getBrowserId (snd kv)) (replace_own (getBrowserId b) b props).
Proof.
  induction 1 as [|[k v] props Hkv Hprops IH]; simpl; [constructor|].
  destruct (String.eqb_spec (getBrowserId b) k) as [<-|Hne]; constructor; auto.
Qed.

Lemma well_keyed_insert_browsers (l : list Browser.t) (obj : object) :
  well_keyed obj -> well_keyed (insert_browsers obj l).
Proof.
  revert obj. induction l as [|b l IH]; intros obj Hobj; [assumption|].
  cbn [insert_browsers foldl]. apply IH. unfold well_keyed, insert_browser, set_property.
  destruct (mem (getBrowserId b) (map fst (own obj))); cbn [own].
  - by apply well_keyed_replace_own.
  - destruct (String.eqb (getBrowserId b) "__proto__"); cbn [own]; [assumption|].
    apply Forall_app. split; [assumption|]. by constructor.
Qed.




Lemma well_keyed_keys (props : list (string * Browser.t)) :
  Forall (fun kv => fst kv = getBrowserId (snd kv)) props ->
  map getBrowserId (map snd props) = map fst props.
Proof.
  induction 1 as [|[k v] props Hkv _ IH]; simpl; [reflexivity|].
  simpl in Hkv. by rewrite IH, Hkv.
Qed.

Lemma NoDup_target_keys (l : list Browser.t) :
  List.NoDup (map getBrowserId (map snd (own (insert_browsers (mkObject [] None) l)))).
Proof.
  set (final := insert_browsers (mkObject [] None) l).
  assert (Hkeyed : well_keyed final) by (apply well_keyed_insert_browsers; constructor).
  assert (Hnd : List.NoDup (map fst (own final)))
    by (apply NoDup_keys_insert_browsers; constructor).
  by rewrite well_keyed_keys.
Qed.

Lemma has_property_plain (obj : object) (k : string) :
  proto obj = None -> mem k Object_prototype_keys = false ->
  has_property obj k = mem k (map fst (own obj)).
Proof.
  intros Hproto Hk. unfold has_property. rewrite Hproto, Hk.
  by rewrite !orb_false_r.
Qed.

Lemma length_replace_own (k : string) (v : Browser.t) (props : list (string * Browser.t)) :
  length (replace_own k v props) = length props.
Proof.
  induction props as [|[k' v'] props IH]; simpl; [reflexivity|].
  destruct (String.eqb k k'); simpl; congruence.
Qed.

Lemma insert_browser_plain (obj : object) (b : Browser.t) :
  proto obj = None -> mem (getBrowserId b) Object_prototype_keys = false ->
  proto (insert_browser obj b) = None /\
  if mem (getBrowserId b) (map fst (own obj))
  then length (own (insert_browser obj b)) = length (own obj)
  else own (insert_browser obj b) = own obj ++ [(getBrowserId b, b)].
Proof.
  intros Hproto Hk. unfold insert_browser, set_property.
  destruct (mem (getBrowserId b) (map fst (own obj))); cbn [own proto].
  - split; [assumption|apply length_replace_own].
  - destruct (String.eqb_spec (getBrowserId b) "__proto__") as [Hp|Hp].
    + rewrite Hp in Hk. discriminate Hk.
    + by cbn [own proto].
Qed.

(** Away from the names inherited from [Object.prototype], every browser
    handed to the map either adds an entry or is reported. *)
Lemma warnings_and_entries (l : list Browser.t) (obj : object) :
  proto obj = None ->
  (forall b, In b l -> mem (getBrowserId b) Object_prototype_keys = false) ->
  (length (duplicate_warnings obj l) + length (own (insert_browsers obj l)) =
   length l + length (own obj))%nat.
Proof.
  revert obj. induction l as [|b l IH]; intros obj Hproto Hkeys; [reflexivity|].
  cbn [duplicate_warnings insert_browsers foldl]. fold (insert_browsers (insert_browser obj b) l).
  assert (Hb : mem (getBrowserId b) Object_prototype_keys = false) by (apply Hkeys; by left).
  destruct (insert_browser_plain obj b Hproto Hb) as [Hproto' Hown].
  rewrite length_app, (has_property_plain _ _ Hproto Hb).
  specialize (IH (insert_browser obj b) Hproto' (fun b' H => Hkeys b' (or_intror H))).
  destruct (mem (getBrowserId b) (map fst (own obj))); simpl.
  - lia.
  - rewrite Hown, length_app in IH. simpl in IH. lia.
Qed.


Lemma matched_until_failure_all (catalog : list Browser.t) (specs : list BrowserSpec.t) :
  (forall spec, In spec specs -> satisfiable catalog spec = true) ->
  matched_until_failure catalog specs = (List.concat (map (selection catalog) specs), None).
Proof.
  induction specs as [|spec specs IH]; intros Hall; [reflexivity|].
  cbn [matched_until_failure map List.concat]. rewrite Hall by (by left).
  rewrite IH; [reflexivity|]. intros s Hs. apply Hall. by right.
Qed.

Lemma matched_until_failure_first (catalog : list Browser.t)
    (done rest : list BrowserSpec.t) (failing : BrowserSpec.t) :
  (forall spec, In spec done -> satisfiable catalog spec = true) ->
  satisfiable catalog failing = false ->
  matched_until_failure catalog (done ++ failing :: rest) =
  (List.concat (map (selection catalog) done), Some failing).
Proof.
  induction done as [|spec done IH]; intros Hall Hfail.
  - simpl. by rewrite Hfail.
  - cbn [app matched_until_failure map List.concat]. rewrite Hall by (by left).
    rewrite IH; [reflexivity| |assumption]. intros s Hs. apply Hall. by right.
Qed.

Lemma matched_until_failure_None (catalog : list Browser.t) (specs : list BrowserSpec.t) :
  (matched_until_failure catalog specs).2 = None <->
  forall spec, In spec specs -> satisfiable catalog spec = true.
Proof.
  split.
  - induction specs as [|spec specs IH]; [by intros _ s []|].
    cbn [matched_until_failure]. destruct (satisfiable catalog spec) eqn:Hsat; [|discriminate].
    destruct (matched_until_failure catalog specs) as [bs f]. cbn [snd] in *.
    intros Hf s [<-|Hs]; [assumption|]. by apply IH.
  - intros Hall. by rewrite matched_until_failure_all.
Qed.

(** The underscores of an identity key. *)
Lemma getBrowserId_has_underscore (b : Browser.t) :
  In "_"%char (list_ascii_of_string (getBrowserId b)).
Proof.
  unfold getBrowserId. cbn [map]. rewrite join_cons.
  generalize (join "_" (join_element (Browser.os_version b) ::
    join_element (Browser.browser b) :: join_element (Browser.browser_version b) ::
    [join_element (Browser.device b)])). intros rest.
  induction (join_element (Browser.os b)) as [|c s IH].
  - rewrite append_nil_l. left. reflexivity.
  - rewrite append_cons. right. exact IH.
Qed.

(** A key that starts with the first character of a named os is not one
    of the names of [Object.prototype]. *)
Lemma named_os_key (b : Browser.t) (c : ascii) (s : string) :
  Browser.os b = str (String c s) -> c <> "_"%char ->
  mem (getBrowserId b) Object_prototype_keys = false.
Proof.
  intros Hos Hc. destruct (mem _ _) eqn:Hmem; [|reflexivity]. exfalso.
  apply mem_true in Hmem.
  pose proof (getBrowserId_has_underscore b) as Hunder.
  assert (Hhead : exists rest, getBrowserId b = String c rest).
  { unfold getBrowserId. cbn [map]. rewrite join_cons, Hos. cbn [join_element].
    rewrite append_cons. eauto. }
  destruct Hhead as (rest & Hid). rewrite Hid in Hmem.
  unfold Object_prototype_keys in Hmem. simpl in Hmem.
  repeat (destruct Hmem as [Hmem|Hmem];
          [first [ injection Hmem as Hc' _; congruence
                 | rewrite Hid, <- Hmem in Hunder; simpl in Hunder;
                   repeat (destruct Hunder as [Hunder|Hunder]; [discriminate Hunder|]);
                   exact Hunder ]|]).
  exact Hmem.
Qed.

(** * One spec *)

(** The two ways a call of [getBrowsersThatMatchSpec] ends. *)
Lemma getBrowsersThatMatchSpec_cases (a : loc) (spec : BrowserSpec.t) (w : world)
    (catalog : list Browser.t) :
  arrays w !! a = Some catalog ->
  if satisfiable catalog spec
  then exists r w', getBrowsersThatMatchSpec a spec w = (Returned r, w') /\
                    arrays w' !! r = Some (selection catalog spec) /\
                    arrays w !! r = None /\ arrays w ⊆ arrays w' /\
                    objects w' = objects w /\ console w' = console w
  else exists w', getBrowsersThatMatchSpec a spec w = (Exited 1, w') /\
                  arrays w ⊆ arrays w' /\ objects w' = objects w /\
                  console w' = console w ++ fatal (fatal_headline catalog spec) spec.
Proof.
  intros Ha.
  destruct (getBrowsersThatMatchSpec_run a spec w catalog Ha) as (w' & Hsub & Hobjs & Hrun).
  unfold satisfiable, fatal_headline.
  destruct (not_enough_versions catalog spec); cbn [negb andb].
  - destruct Hrun as [Hrun Hcon]. by exists w'.
  - destruct (selection catalog spec) as [|b l].
    + destruct Hrun as [Hrun Hcon]. by exists w'.
    + destruct Hrun as (r & Hrun & Hr & Hfresh & Hcon). by exists r, w'.
Qed.

Lemma getBrowsersThatMatchSpec_returns (a : loc) (spec : BrowserSpec.t) (w : world)
    (catalog l : list Browser.t) :
  arrays w !! a = Some catalog ->
  returns_array (getBrowsersThatMatchSpec a spec) w l ->
  satisfiable catalog spec = true /\ l = selection catalog spec.
Proof.
  intros Ha (r & w' & Hrun & Hr).
  pose proof (getBrowsersThatMatchSpec_cases a spec w catalog Ha) as Hcases.
  destruct (satisfiable catalog spec).
  - destruct Hcases as (r1 & w1 & Hrun1 & Hr1 & _). split; [reflexivity|]. congruence.
  - destruct Hcases as (w1 & Hrun1 & _). congruence.
Qed.

Lemma selection_candidates (catalog : list Browser.t) (spec : BrowserSpec.t) (b : Browser.t) :
  In b (selection catalog spec) -> In b (candidates catalog spec).
Proof.
  unfold selection. destruct (BrowserSpec.browser_version spec) as [value|versions|].
  - intros H%In_slice_list. rewrite <- list_elem_of_In in H.
    rewrite sort_list_Permutation in H. by rewrite list_elem_of_In in H.
  - intros H. by apply filter_In in H as [H _].
  - tauto.
Qed.

Lemma length_selection (catalog : list Browser.t) (spec : BrowserSpec.t) :
  (length (selection catalog spec) <= length (candidates catalog spec))%nat.
Proof.
  unfold selection. destruct (BrowserSpec.browser_version spec) as [value|versions|].
  - unfold slice_list. rewrite length_take, length_drop, length_sort_list. lia.
  - apply List.filter_length_le.
  - lia.
Qed.

Lemma digits_value_nonneg (ds : string) (acc : Z) :
  all_digits ds -> 0 <= acc -> 0 <= digits_value acc ds.
Proof.
  revert acc. induction ds as [|c ds IH]; intros acc Hds Hacc; [assumption|].
  simpl. apply IH.
  - intros c' Hc'. apply Hds. simpl. auto.
  - assert (Hc : is_digit c = true) by (apply Hds; simpl; auto).
    unfold is_digit in Hc. apply andb_prop in Hc as [H1 H2].
    apply Nat.leb_le in H1. lia.
Qed.

(** * Identity keys *)

Lemma split_at_underscore (a a' r r' : string) :
  no_underscore a -> no_underscore a' ->
  a +:+ "_" +:+ r = a' +:+ "_" +:+ r' -> a = a' /\ r = r'.
Proof.
  revert a'. induction a as [|c a IH]; intros a' Ha Ha' Heq.
  - destruct a' as [|c' a'].
    + rewrite !append_nil_l in Heq. by injection Heq.
    + rewrite append_nil_l, !append_cons in Heq. injection Heq as <- _.
      exfalso. apply Ha'. simpl. auto.
  - destruct a' as [|c' a'].
    + rewrite append_nil_l, !append_cons in Heq. injection Heq as -> _.
      exfalso. apply Ha. simpl. auto.
    + rewrite !append_cons in Heq. injection Heq as -> Heq.
      destruct (IH a') as [-> ->]; [..|assumption|done].
      * intros H. apply Ha. simpl. auto.
      * intros H. apply Ha'. simpl. auto.
Qed.

Lemma getBrowserId_unfold (b : Browser.t) :
  getBrowserId b =
  join_element (Browser.os b) +:+ "_" +:+
  join_element (Browser.os_version b) +:+ "_" +:+
  join_element (Browser.browser b) +:+ "_" +:+
  join_element (Browser.browser_version b) +:+ "_" +:+
  join_element (Browser.device b).
Proof. reflexivity. Qed.

(** * [parseBrowserVersion] *)

Lemma length_split_comma (s : string) :
  length (split_comma s) = S (count_commas s).
Proof.
  induction s as [|c s IH]; [reflexivity|]. simpl.
  destruct (Ascii.eqb c ","); simpl; [by rewrite IH|].
  destruct (split_comma s); simpl in *; congruence.
Qed.

Lemma exec_last_digits (s ds : string) :
  exec_last s = Some ds -> integer_literal ds.
Proof.
  intros H. destruct (exec_last_Some _ _ H) as (pre & (rest & _ & Hds & _) & _). exact Hds.
Qed.

(** * Versions that are integers *)

Lemma round64_exact (m : Z) :
  0 <= m < 2 ^ 53 -> round64 false (m * 2 ^ 1074) 1 = finite (m * 2 ^ 1074).
Proof.
  intros [Hm0 Hm]. destruct (Z.eq_dec m 0) as [->|Hne]; [reflexivity|].
  assert (Hpos : 0 < m) by lia.
  unfold round64. rewrite Z.div_1_r, Z.mul_1_l.
  assert (Hlog : Z.log2 (m * 2 ^ 1074) = 1074 + Z.log2 m) by (apply Z.log2_mul_pow2; lia).
  assert (He : 0 <= Z.log2 m <= 52).
  { split; [apply Z.log2_nonneg|]. 
    assert (Z.log2 m < 53) by (apply Z.log2_lt_pow2; lia). lia. }
  assert (Hbig : (m * 2 ^ 1074 <? 2 ^ 53) = false).
  { apply Z.ltb_ge. assert (2 ^ 53 <= 2 ^ 1074) by (apply Z.pow_le_mono_r; lia).
    assert (0 < 2 ^ 1074) by (apply Z.pow_pos_nonneg; lia). nia. }
  rewrite Hbig, Hlog.
  set (d := 1074 + Z.log2 m - 52). set (k := 52 - Z.log2 m).
  assert (Hsplit : 2 ^ 1074 = 2 ^ k * 2 ^ d).
  { rewrite <- Z.pow_add_r by (unfold k, d; lia). f_equal. unfold k, d. lia. }
  assert (Hd : 0 < 2 ^ d) by (apply Z.pow_pos_nonneg; unfold d; lia).
  assert (Hnum : m * 2 ^ 1074 = (m * 2 ^ k) * 2 ^ d) by (rewrite Hsplit; ring).
  rewrite Hnum, Z.div_mul, Z.mod_mul by lia.
  assert (Hf1 : (2 ^ d <? 2 * 0) = false) by (apply Z.ltb_ge; lia).
  assert (Hf2 : (2 ^ d =? 2 * 0) = false) by (apply Z.eqb_neq; lia).
  rewrite Hf1, Hf2. cbn [orb andb].
  assert (Hsmall : (2 ^ 2098 <=? m * 2 ^ k * 2 ^ d) = false).
  { apply Z.leb_gt. rewrite <- Hnum.
    assert (2 ^ 2098 = 2 ^ 1024 * 2 ^ 1074) by (rewrite <- Z.pow_add_r by lia; reflexivity).
    assert (2 ^ 53 <= 2 ^ 1024) by (apply Z.pow_le_mono_r; lia).
    assert (0 < 2 ^ 1074) by (apply Z.pow_pos_nonneg; lia). nia. }
  by rewrite Hsmall.
Qed.

Lemma parseFloat_integer (s : string) :
  integer_literal s -> digits_value 0 s < 2 ^ 53 ->
  parseFloat (str s) = finite (digits_value 0 s * 2 ^ 1074).
Proof.
  intros [Hne Hds] Hsmall. destruct s as [|c s]; [congruence|].
  assert (Hc : is_digit c = true) by (apply Hds; simpl; auto).
  unfold parseFloat. cbn [ToString].
  assert (Hhead : take_sign (skip_white_space (String c s)) = (false, String c s) /\
                  skip_literal "Infinity" (String c s) = None).
  { clear -Hc. destruct c as [[] [] [] [] [] [] [] []];
      try (vm_compute in Hc; discriminate Hc); split; reflexivity. }
  destruct Hhead as [-> ->].
  rewrite <- (append_empty_r (String c s)) at 1.
  rewrite take_digits_app by (assumption || exact I).
  rewrite (append_empty_r (String c s)). cbn [take_exponent String.length Z.of_nat].
  change (0 - 0) with 0. change (0 <=? 0) with true. cbv iota.
  rewrite Z.pow_0_r, Z.mul_1_r. apply round64_exact. split; [|assumption].
  by apply digits_value_nonneg.
Qed.

Lemma compare_small_integer_versions (a b : Browser.t) :
  small_integer_version a -> small_integer_version b ->
  is_positive (compare_versions a b) = (version_integer a <? version_integer b).
Proof.
  intros (s & Hs & Hlit & Hsmall) (t & Ht & Hlit' & Hsmall').
  unfold compare_versions, version_integer. rewrite Hs, Ht. cbn [ToString].
  rewrite !parseFloat_integer by assumption. rewrite is_positive_sub_finite.
  assert (0 < 2 ^ 1074) by (apply Z.pow_pos_nonneg; lia).
  destruct (Z.ltb_spec (digits_value 0 s) (digits_value 0 t)); [apply Z.ltb_lt|apply Z.ltb_ge]; nia.
Qed.

(** * Candidates without a usable version *)



(** * The catalogue filter *)

Lemma filter_idempotent {A : Type} (f : A -> bool) (l : list A) :
  List.filter f (List.filter f l) = List.filter f l.
Proof.
  induction l as [|x l IH]; [reflexivity|]. simpl.
  destruct (f x) eqn:Hx; simpl; [rewrite Hx|]; congruence.
Qed.

Lemma stable_spec (b : Browser.t) :
  stable b = true <->
  falsy (Browser.browser_version b) \/ numeric_version (Browser.browser_version b).
Proof.
  unfold stable, falsy, numeric_version.
  destruct (Browser.browser_version b) as [| |s]; simpl.
  - intuition.
  - intuition.
  - destruct s as [|c s]; simpl; [intuition|].
    rewrite exec_stable_version_spec. split.
    + intros H. right. eauto.
    + intros [[|[|]]|(s' & [= <-] & H)]; congruence.
Qed.

Lemma loadAvailableBrowsers_run (a : loc) (w : world) (fetched : list Browser.t) :
  arrays w !! a = Some fetched ->
  loadAvailableBrowsers a w =
  (Returned (fresh (dom (arrays w))),
   mkWorld (<[fresh (dom (arrays w)) := List.filter stable fetched]> (arrays w))
           (objects w) (console w)).
Proof. intros Ha. unfold loadAvailableBrowsers. by rewrite (run_Array_filter _ _ _ _ Ha). Qed.

Lemma Forall_duplicate_warnings (l : list Browser.t) (obj : object) :
  Forall (fun e => e = duplicate_warning) (duplicate_warnings obj l).
Proof.
  revert obj. induction l as [|b l IH]; intros obj; simpl; [constructor|].
  apply Forall_app. split; [|apply IH].
  destruct (has_property _ _); [|constructor]. by apply Forall_cons_2; [|constructor].
Qed.

Lemma length_duplicate_warnings (l : list Browser.t) (obj : object) :
  (length (duplicate_warnings obj l) <= length l)%nat.
Proof.
  revert obj. induction l as [|b l IH]; intros obj; simpl; [lia|].
  rewrite length_app. specialize (IH (insert_browser obj b)).
  destruct (has_property _ _); simpl; lia.
Qed.

(** What a returning call of [getTargetBrowsers] has done. *)
Lemma getTargetBrowsers_returns (a : loc) (aggregatedSpecs : list GroupedBrowserSpec.t)
    (w : world) (catalog : list Browser.t) (r : loc) (w' : world) :
  arrays w !! a = Some catalog ->
  getTargetBrowsers a aggregatedSpecs w = (Returned r, w') ->
  (forall spec, In spec (resolved_specs aggregatedSpecs) -> satisfiable catalog spec = true) /\
  arrays w' !! r =
    Some (map snd (own (insert_browsers (mkObject [] None) (all_matches catalog aggregatedSpecs)))) /\
  console w' =
    console w ++ duplicate_warnings (mkObject [] None) (all_matches catalog aggregatedSpecs).
Proof.
  intros Ha Hrun. pose proof (getTargetBrowsers_fold a aggregatedSpecs w catalog Ha) as Hfold.
  cbv zeta in Hfold.
  destruct (matched_until_failure catalog (resolved_specs aggregatedSpecs)).2 as [failing|] eqn:Hf.
  - destruct Hfold as (w1 & Hrun1 & _). congruence.
  - pose proof (proj1 (matched_until_failure_None _ _) Hf) as Hall.
    rewrite (matched_until_failure_all _ _ Hall) in Hfold. cbn [fst] in Hfold.
    destruct Hfold as (r1 & w1 & Hrun1 & Hr1 & Hcon1).
    rewrite Hrun in Hrun1. injection Hrun1 as <- <-. by split.
Qed.

(** * Further properties of the code *)

(** ** [getBrowsersThatMatchSpec] *)

(** X1.  [getBrowsersThatMatchSpec] never returns an empty array: what it
    returns holds at least one browser, every browser in it is an entry of
    the catalogue with the device, os, os_version and browser of the spec,
    and there are no more of them than there are candidates. *)
Theorem matches_are_candidates (a : loc) (w : world) (catalog l : list Browser.t)
    (spec : BrowserSpec.t) :
  arrays w !! a = Some catalog ->
  returns_array (getBrowsersThatMatchSpec a spec) w l ->
  l <> [] /\
  (forall b, In b l -> In b catalog /\ same_group spec b = true) /\
  (length l <= length (candidates catalog spec))%nat.
Proof.
  intros Ha Hret.
  destruct (getBrowsersThatMatchSpec_returns a spec w catalog l Ha Hret) as [Hsat ->].
  split; [|split].
  - unfold satisfiable in Hsat. apply andb_prop in Hsat as [_ Hsel].
    by destruct (selection catalog spec).
  - intros b Hb%selection_candidates. by apply filter_In in Hb.
  - apply length_selection.
Qed.

Lemma matches_are_candidates_witness :
  [chrome (str "62.0"); chrome (str "61.0")] <> [] /\
  (forall b, In b [chrome (str "62.0"); chrome (str "61.0")] ->
     In b sample_catalog /\ same_group (chrome_spec (str "last 2")) b = true) /\
  (length [chrome (str "62.0"); chrome (str "61.0")] <=
   length (candidates sample_catalog (chrome_spec (str "last 2"))))%nat.
Proof.
  apply (matches_are_candidates 1%positive sample_world sample_catalog _
           (chrome_spec (str "last 2"))).
  - reflexivity.
  - eexists _, _. split; [vm_compute; reflexivity|reflexivity].
Defined.

(** X2.  Whenever a "last N" spec returns, it returns exactly [N] browsers,
    and they are [N] of the candidates (with the candidates left out they
    make up the candidates again), whatever the version strings are,
    numeric or not. *)
Theorem last_n_returns_n (a : loc) (w : world) (catalog l : list Browser.t)
    (spec : BrowserSpec.t) (value : string) :
  arrays w !! a = Some catalog ->
  BrowserSpec.browser_version spec = type_last value ->
  integer_literal value ->
  returns_array (getBrowsersThatMatchSpec a spec) w l ->
  Z.of_nat (length l) = ToNumber_digits value /\
  exists rest, l ++ rest ≡ₚ candidates catalog spec.
Proof.
  intros Ha Hlast [_ Hdigits] Hret.
  destruct (getBrowsersThatMatchSpec_returns a spec w catalog l Ha Hret) as [Hsat ->].
  unfold satisfiable, not_enough_versions, selection in *. rewrite Hlast in *.
  apply andb_prop in Hsat as [Hlen _]. apply negb_true_iff, Z.ltb_ge in Hlen.
  assert (Hn : 0 <= ToNumber_digits value) by (by apply digits_value_nonneg).
  rewrite slice_list_take by assumption. split.
  - rewrite length_take, length_sort_list. lia.
  - exists (drop (Z.to_nat (ToNumber_digits value))
                 (sort_list compare_versions (candidates catalog spec))).
    rewrite take_drop. apply sort_list_Permutation.
Qed.

Lemma last_n_returns_n_witness :
  Z.of_nat (length [chrome (str "62.0"); chrome (str "61.0")]) = ToNumber_digits "2" /\
  exists rest, [chrome (str "62.0"); chrome (str "61.0")] ++ rest
               ≡ₚ candidates sample_catalog (chrome_spec (str "last 2")).
Proof.
  apply (last_n_returns_n 1%positive sample_world sample_catalog _
           (chrome_spec (str "last 2")) "2").
  - reflexivity.
  - reflexivity.
  - split; [discriminate|]. intros c [<-|[]]. reflexivity.
  - eexists _, _. split; [vm_compute; reflexivity|reflexivity].
Defined.

(** X3.  When [getBrowsersThatMatchSpec] ends the process, the status is 1
    and exactly three lines were written with [console.error]: a headline,
    the JSON of the spec and "Exiting...".  The headline is "Not enough
    versions available ..." when the spec is "last N" with fewer than [N]
    candidates, and "No browsers available ..." in every other case. *)
Theorem fatal_message (a : loc) (w : world) (catalog : list Browser.t)
    (spec : BrowserSpec.t) (status : Z) (out : list event) :
  arrays w !! a = Some catalog ->
  exits (getBrowsersThatMatchSpec a spec) w status out ->
  status = 1 /\
  out = [console_error (text
           (if not_enough_versions catalog spec
            then "Not enough versions available for the following spec:"
            else "No browsers available for the following spec:"));
         console_error (JSON_stringify spec);
         console_error (text "Exiting...")].
Proof.
  intros Ha (w' & Hrun & Hcon).
  pose proof (getBrowsersThatMatchSpec_cases a spec w catalog Ha) as Hcases.
  destruct (satisfiable catalog spec).
  - destruct Hcases as (r1 & w1 & Hrun1 & _). congruence.
  - destruct Hcases as (w1 & Hrun1 & _ & _ & Hcon1).
    rewrite Hrun in Hrun1. injection Hrun1 as <- <-. split; [reflexivity|].
    rewrite Hcon in Hcon1. by apply app_inv_head in Hcon1.
Qed.

Lemma fatal_message_witness :
  1 = 1 /\
  fatal "Not enough versions available for the following spec:" (chrome_spec (str "last 7")) =
  [console_error (text
     (if not_enough_versions sample_catalog (chrome_spec (str "last 7"))
      then "Not enough versions available for the following spec:"
      else "No browsers available for the following spec:"));
   console_error (JSON_stringify (chrome_spec (str "last 7")));
   console_error (text "Exiting...")].
Proof.
  apply (fatal_message 1%positive sample_world sample_catalog (chrome_spec (str "last 7"))).
  - reflexivity.
  - eexists. split; [vm_compute; reflexivity|reflexivity].
Defined.

(** X4.  Versions that are integers below [2^53] are ordered as integers
    by "last N": "100" stands before "99" and "99" before "9".  When all
    the candidates of a "last N" spec carry such versions and there are at
    least [N >= 1] of them, the call returns the [N] first of the
    candidates in descending order of the integer. *)
Theorem last_n_orders_integer_versions (a : loc) (w : world) (catalog : list Browser.t)
    (spec : BrowserSpec.t) (value : string) :
  arrays w !! a = Some catalog ->
  BrowserSpec.browser_version spec = type_last value ->
  1 <= ToNumber_digits value <= Z.of_nat (length (candidates catalog spec)) ->
  Forall small_integer_version (candidates catalog spec) ->
  exists l rest,
    returns_array (getBrowsersThatMatchSpec a spec) w l /\
    Z.of_nat (length l) = ToNumber_digits value /\
    l ++ rest ≡ₚ candidates catalog spec /\
    StronglySorted (fun x y => version_integer y <= version_integer x) (l ++ rest).
Proof.
  intros Ha Hlast [Hn1 Hn2] Hint.
  set (sorted := sort_list compare_versions (candidates catalog spec)).
  set (n := Z.to_nat (ToNumber_digits value)).
  exists (take n sorted), (drop n sorted).
  pose proof (getBrowsersThatMatchSpec_cases a spec w catalog Ha) as Hcases.
  assert (Hsel : selection catalog spec = take n sorted).
  { unfold selection. rewrite Hlast. by rewrite slice_list_take by lia. }
  assert (Htake : length (take n sorted) = n).
  { unfold sorted. rewrite length_take, length_sort_list. lia. }
  assert (Hsat : satisfiable catalog spec = true).
  { unfold satisfiable, not_enough_versions. rewrite Hlast, Hsel.
    rewrite (proj2 (Z.ltb_ge _ _)) by lia.
    destruct (take n sorted); [simpl in Htake; lia|reflexivity]. }
  rewrite Hsat, Hsel in Hcases. destruct Hcases as (r & w' & Hrun & Hr & _).
  split; [by exists r, w'|]. split; [lia|]. rewrite take_drop.
  split; [apply sort_list_Permutation|].
  apply (sort_list_StronglySorted compare_versions _ small_integer_version); [| |assumption].
  - intros x y z. lia.
  - intros x y Hx Hy. rewrite (compare_small_integer_versions x y Hx Hy).
    destruct (Z.ltb_spec (version_integer x) (version_integer y)); lia.
Qed.

Lemma last_n_orders_integer_versions_witness :
  exists l rest,
    returns_array (getBrowsersThatMatchSpec 1%positive (chrome_spec (str "last 3")))
                  integer_world l /\
    Z.of_nat (length l) = ToNumber_digits "3" /\
    l ++ rest ≡ₚ candidates integer_catalog (chrome_spec (str "last 3")) /\
    StronglySorted (fun x y => version_integer y <= version_integer x) (l ++ rest).
Proof.
  apply (last_n_orders_integer_versions 1%positive integer_world integer_catalog
           (chrome_spec (str "last 3")) "3").
  - reflexivity.
  - reflexivity.
  - vm_compute. split; discriminate.
  - repeat constructor;
      (eexists; split; [reflexivity|]; split;
       [split; [discriminate|]; intros c Hc; simpl in Hc;
        repeat (destruct Hc as [<-|Hc]; [reflexivity|]); destruct Hc
       |vm_compute; reflexivity]).
Defined.



(** ** [addBrowsers] *)

(** X6.  [addBrowsers] always returns, for every key: it never ends the
    process.  It leaves all arrays and all objects other than the map as
    they were, and writes nothing but "duplicate browser" warnings, at most
    one for each browser it is given. *)
Theorem addBrowsers_only_touches_map (browserMap browsers : loc) (w : world)
    (obj : object) (l : list Browser.t) :
  arrays w !! browsers = Some l ->
  objects w !! browserMap = Some obj ->
  exists w' out,
    addBrowsers browserMap browsers w = (Returned tt, w') /\
    arrays w' = arrays w /\
    (forall o, o <> browserMap -> objects w' !! o = objects w !! o) /\
    console w' = console w ++ out /\
    Forall (fun e => e = duplicate_warning) out /\
    (length out <= length l)%nat.
Proof.
  intros Hl Hobj. rewrite (addBrowsers_run _ _ _ _ _ Hl Hobj).
  eexists _, _. split; [reflexivity|]. cbn [arrays objects console].
  split; [reflexivity|]. split; [intros o Ho; by apply lookup_insert_ne|].
  split; [reflexivity|]. split; [apply Forall_duplicate_warnings|apply length_duplicate_warnings].
Qed.

Lemma addBrowsers_only_touches_map_witness :
  exists w' out,
    addBrowsers 2%positive 1%positive aggregator_world = (Returned tt, w') /\
    arrays w' = arrays aggregator_world /\
    (forall o, o <> 2%positive -> objects w' !! o = objects aggregator_world !! o) /\
    console w' = console aggregator_world ++ out /\
    Forall (fun e => e = duplicate_warning) out /\
    (length out <= length sample_catalog)%nat.
Proof.
  apply (addBrowsers_only_touches_map 2%positive 1%positive aggregator_world
           (mkObject [] None) sample_catalog); reflexivity.
Defined.

(** ** [getTargetBrowsers] *)



(** X8.  [getTargetBrowsers] returns if and only if every spec of the file
    passes both fatal checks against the catalogue; one spec without a
    match makes the whole call end the process. *)
Theorem getTargetBrowsers_returns_iff (a : loc) (aggregatedSpecs : list GroupedBrowserSpec.t)
    (w : world) (catalog : list Browser.t) :
  arrays w !! a = Some catalog ->
  (exists l, returns_array (getTargetBrowsers a aggregatedSpecs) w l) <->
  (forall spec, In spec (resolved_specs aggregatedSpecs) -> satisfiable catalog spec = true).
Proof.
  intros Ha. split.
  - intros (l & r & w' & Hrun & _).
    by destruct (getTargetBrowsers_returns a aggregatedSpecs w catalog r w' Ha Hrun).
  - intros Hall. pose proof (getTargetBrowsers_fold a aggregatedSpecs w catalog Ha) as Hfold.
    cbv zeta in Hfold. rewrite (matched_until_failure_all _ _ Hall) in Hfold. cbn [fst snd] in Hfold.
    destruct Hfold as (r & w' & Hrun & Hr & _). by eexists _, r, w'.
Qed.

Lemma getTargetBrowsers_returns_iff_witness :
  satisfiable sample_catalog (chrome_spec (str "9,62.0")) = true.
Proof.
  apply (proj1 (getTargetBrowsers_returns_iff 1%positive sample_specs sample_world
                  sample_catalog eq_refl)).
  - eexists _, _, _. split; [vm_compute; reflexivity|reflexivity].
  - right. left. reflexivity.
Defined.

(** X9.  The specs are tried in file order and the first one that fails is
    the one reported: if the specs before [failing] all pass and [failing]
    does not, the call ends the process with status 1, and what it has
    written is duplicate warnings followed by the fatal message of
    [failing]; no later spec is looked at. *)
Theorem first_failing_spec_is_reported (a : loc) (aggregatedSpecs : list GroupedBrowserSpec.t)
    (w : world) (catalog : list Browser.t)
    (passed later : list BrowserSpec.t) (failing : BrowserSpec.t) :
  arrays w !! a = Some catalog ->
  resolved_specs aggregatedSpecs = passed ++ failing :: later ->
  (forall spec, In spec passed -> satisfiable catalog spec = true) ->
  satisfiable catalog failing = false ->
  exists warnings,
    Forall (fun e => e = duplicate_warning) warnings /\
    exits (getTargetBrowsers a aggregatedSpecs) w 1
      (warnings ++ fatal (fatal_headline catalog failing) failing).
Proof.
  intros Ha Hspecs Hpassed Hfailing.
  pose proof (getTargetBrowsers_fold a aggregatedSpecs w catalog Ha) as Hfold.
  cbv zeta in Hfold.
  rewrite Hspecs, (matched_until_failure_first _ _ _ _ Hpassed Hfailing) in Hfold.
  cbn [fst snd] in Hfold. eexists. split; [|exact Hfold]. apply Forall_duplicate_warnings.
Qed.

Lemma first_failing_spec_is_reported_witness :
  exists warnings,
    Forall (fun e => e = duplicate_warning) warnings /\
    exits (getTargetBrowsers 1%positive failing_specs) sample_world 1
      (warnings ++
       fatal (fatal_headline sample_catalog
                (BrowserSpec.mk undefined (str "Windows") (str "10") (str "firefox")
                   type_no_version))
             (BrowserSpec.mk undefined (str "Windows") (str "10") (str "firefox")
                type_no_version)).
Proof.
  apply (first_failing_spec_is_reported 1%positive failing_specs sample_world sample_catalog
           [chrome_spec (str "last 2"); chrome_spec (str "62.0")]
           [chrome_spec (str "last 9")]).
  - reflexivity.
  - reflexivity.
  - intros spec [<-|[<-|[]]]; reflexivity.
  - reflexivity.
Defined.

(** X10.  The target list never holds two browsers with the same identity
    key. *)
Theorem targets_have_distinct_keys (a : loc) (aggregatedSpecs : list GroupedBrowserSpec.t)
    (w : world) (catalog l : list Browser.t) :
  arrays w !! a = Some catalog ->
  returns_array (getTargetBrowsers a aggregatedSpecs) w l ->
  List.NoDup (map getBrowserId l).
Proof.
  intros Ha (r & w' & Hrun & Hr).
  destruct (getTargetBrowsers_returns a aggregatedSpecs w catalog r w' Ha Hrun) as (_ & Hr' & _).
  rewrite Hr in Hr'. injection Hr' as ->. apply NoDup_target_keys.
Qed.

Lemma targets_have_distinct_keys_witness :
  List.NoDup (map getBrowserId
    [chrome (str "62.0"); chrome (str "61.0"); chrome (str "9"); iphone "iPhone 7"]).
Proof.
  apply (targets_have_distinct_keys 1%positive sample_specs sample_world sample_catalog).
  - reflexivity.
  - eexists _, _. split; [vm_compute; reflexivity|reflexivity].
Defined.





(** X13.  When no match has a property name of [Object.prototype] for
    identity key, every match of every spec either becomes a target or is
    reported: the number of targets and the number of duplicate warnings add
    up to the number of matches. *)
Theorem every_match_is_kept_or_reported (a : loc) (aggregatedSpecs : list GroupedBrowserSpec.t)
    (w : world) (catalog l : list Browser.t) (r : loc) (w' : world) :
  arrays w !! a = Some catalog ->
  getTargetBrowsers a aggregatedSpecs w = (Returned r, w') ->
  arrays w' !! r = Some l ->
  (forall b, In b (all_matches catalog aggregatedSpecs) ->
     mem (getBrowserId b) Object_prototype_keys = false) ->
  exists warnings,
    console w' = console w ++ warnings /\
    Forall (fun e => e = duplicate_warning) warnings /\
    (length l + length warnings = length (all_matches catalog aggregatedSpecs))%nat.
Proof.
  intros Ha Hrun Hl Hkeys.
  destruct (getTargetBrowsers_returns a aggregatedSpecs w catalog r w' Ha Hrun)
    as (_ & Hr & Hcon).
  rewrite Hl in Hr. injection Hr as ->.
  eexists. split; [exact Hcon|]. split; [apply Forall_duplicate_warnings|].
  pose proof (warnings_and_entries (all_matches catalog aggregatedSpecs) (mkObject [] None)
                eq_refl Hkeys) as Hcount.
  rewrite length_map. simpl in Hcount. lia.
Qed.

Lemma every_match_is_kept_or_reported_witness :
  exists warnings,
    console (getTargetBrowsers 1%positive sample_specs sample_world).2 =
      console sample_world ++ warnings /\
    Forall (fun e => e = duplicate_warning) warnings /\
    (length [chrome (str "62.0"); chrome (str "61.0"); chrome (str "9"); iphone "iPhone 7"] +
     length warnings = length (all_matches sample_catalog sample_specs))%nat.
Proof.
  apply (every_match_is_kept_or_reported 1%positive sample_specs sample_world sample_catalog _
           7%positive).
  - reflexivity.
  - vm_compute. reflexivity.
  - vm_compute. reflexivity.
  - intros b Hb. vm_compute in Hb.
    repeat (destruct Hb as [<-|Hb]; [reflexivity|]). destruct Hb.
Defined.

(** ** [getBrowserId] *)

(** X14.  Underscores inside the fields are the only way two records get
    the same identity key: when no field of two records contains an
    underscore, equal keys mean that the five fields print the same, one by
    one (a missing field, [null] and the empty string all print as
    nothing). *)
Theorem getBrowserId_injective_without_underscores (b1 b2 : Browser.t) :
  Forall no_underscore (printed_fields b1) ->
  Forall no_underscore (printed_fields b2) ->
  getBrowserId b1 = getBrowserId b2 ->
  printed_fields b1 = printed_fields b2.
Proof.
  unfold printed_fields. cbn [map]. intros H1 H2 Hid.
  rewrite !getBrowserId_unfold in Hid.
  repeat match goal with
         | H : Forall _ (_ :: _) |- _ => apply Forall_cons in H as [? H]
         end.
  repeat match goal with
         | H : _ +:+ "_" +:+ _ = _ +:+ "_" +:+ _ |- _ =>
             apply split_at_underscore in H as [? H]; [|assumption..]
         end.
  congruence.
Qed.

Lemma getBrowserId_injective_without_underscores_witness :
  printed_fields (Browser.mk (str "ios") (str "10.3") (str "Mobile Safari") null (str "iPhone 7")) =
  printed_fields (Browser.mk (str "ios") (str "10.3") (str "Mobile Safari") (str "") (str "iPhone 7")).
Proof.
  apply getBrowserId_injective_without_underscores.
  - repeat constructor; (intros H; simpl in H;
      repeat (destruct H as [H|H]; [discriminate H|]); exact H).
  - repeat constructor; (intros H; simpl in H;
      repeat (destruct H as [H|H]; [discriminate H|]); exact H).
  - reflexivity.
Defined.

(** ** [parseBrowserVersion] *)

(** X15.  What [parseBrowserVersion] builds is always usable by the
    matcher: a [last] value is a non-empty string of digits, so it reads as
    a number that is not negative; a [list] value is never empty, it has
    one piece more than the string has commas (pieces may be empty), and
    the pieces joined by commas are the string; [no-version] is only built
    for a version that is falsy. *)
Theorem parseBrowserVersion_well_formed (version : value) :
  match parseBrowserVersion version with
  | type_last value => integer_literal value /\ 0 <= ToNumber_digits value
  | type_list pieces =>
      length pieces = S (count_commas (ToString version)) /\
      join "," pieces = ToString version
  | type_no_version => falsy version
  end.
Proof.
  unfold parseBrowserVersion. destruct (truthy version) eqn:Htruthy.
  - destruct (exec_last (ToString version)) as [ds|] eqn:Hexec.
    + pose proof (exec_last_digits _ _ Hexec) as Hlit. split; [assumption|].
      apply digits_value_nonneg; [apply Hlit|lia].
    + split; [apply length_split_comma|apply split_comma_spec].
  - unfold falsy. destruct version as [| |s]; [tauto..|].
    destruct s; [tauto|discriminate].
Qed.

(** ** [loadAvailableBrowsers] *)

(** X16.  [loadAvailableBrowsers] returns a new array and leaves the
    fetched one as it was; it writes nothing and cannot end the process.
    Every entry it returns has a version that is falsy or numeric, and
    filtering its result again changes nothing. *)
Theorem loadAvailableBrowsers_idempotent (a : loc) (w : world) (fetched : list Browser.t) :
  arrays w !! a = Some fetched ->
  exists r w' l,
    loadAvailableBrowsers a w = (Returned r, w') /\
    arrays w' !! r = Some l /\
    r <> a /\ arrays w' !! a = Some fetched /\
    objects w' = objects w /\ console w' = console w /\
    Forall (fun b => falsy (Browser.browser_version b) \/
                     numeric_version (Browser.browser_version b)) l /\
    returns_array (loadAvailableBrowsers r) w' l.
Proof.
  intros Ha. rewrite (loadAvailableBrowsers_run _ _ _ Ha).
  set (r := fresh (dom (arrays w))).
  assert (Hr : arrays w !! r = None) by apply fresh_array_None.
  eexists r, _, _. split; [reflexivity|]. cbn [arrays objects console].
  split; [apply lookup_insert_eq|]. split; [congruence|].
  split; [rewrite lookup_insert_ne; [assumption|congruence]|].
  split; [reflexivity|]. split; [reflexivity|]. split.
  - apply List.Forall_forall. intros b Hb. apply filter_In in Hb as [_ Hb].
    by apply stable_spec.
  - eexists _, _. rewrite (loadAvailableBrowsers_run _ _ (List.filter stable fetched)).
    + split; [reflexivity|]. cbn [arrays]. rewrite filter_idempotent. apply lookup_insert_eq.
    + apply lookup_insert_eq.
Qed.

Lemma loadAvailableBrowsers_idempotent_witness :
  exists r w' l,
    loadAvailableBrowsers 1%positive (mkWorld {[ 1%positive := sample_fetched ]} ∅ []) =
      (Returned r, w') /\
    arrays w' !! r = Some l /\
    r <> 1%positive /\ arrays w' !! 1%positive = Some sample_fetched /\
    objects w' = objects (mkWorld {[ 1%positive := sample_fetched ]} ∅ []) /\
    console w' = console (mkWorld {[ 1%positive := sample_fetched ]} ∅ []) /\
    Forall (fun b => falsy (Browser.browser_version b) \/
                     numeric_version (Browser.browser_version b)) l /\
    returns_array (loadAvailableBrowsers r) w' l.
Proof.
  apply (loadAvailableBrowsers_idempotent 1%positive
           (mkWorld {[ 1%positive := sample_fetched ]} ∅ []) sample_fetched).
  reflexivity.
Defined.

(** ** [main] *)

(** X17.  The filter and the matcher in a row, as [main] runs them: every
    browser of the target list is one of the fetched entries, and its
    version is falsy or numeric.  A beta or dev version is never targeted,
    whatever the spec file asks for, and the fetched array is left as it
    was. *)
Theorem main_selection_targets_are_stable (a : loc) (aggregatedSpecs : list GroupedBrowserSpec.t)
    (w : world) (fetched : list Browser.t) (r : loc) (w' : world) :
  arrays w !! a = Some fetched ->
  main_selection a aggregatedSpecs w = (Returned r, w') ->
  arrays w' !! a = Some fetched /\
  exists l,
    arrays w' !! r = Some l /\
    forall b, In b l ->
      In b fetched /\
      (falsy (Browser.browser_version b) \/ numeric_version (Browser.browser_version b)).
Proof.
  intros Ha Hrun. unfold main_selection in Hrun.
  rewrite run_bind, (loadAvailableBrowsers_run _ _ _ Ha) in Hrun.
  set (r1 := fresh (dom (arrays w))) in Hrun. set (w1 := mkWorld _ _ _) in Hrun.
  assert (Hr1 : arrays w !! r1 = None) by apply fresh_array_None.
  assert (Hw1 : arrays w1 !! r1 = Some (List.filter stable fetched)) by apply lookup_insert_eq.
  assert (Ha1 : arrays w1 !! a = Some fetched).
  { unfold w1. cbn [arrays]. rewrite lookup_insert_ne; [assumption|congruence]. }
  destruct (getTargetBrowsers_run r1 aggregatedSpecs w1 _ Hw1)
    as (w2 & Hsub & _ & _ & [Hexit|(r2 & l & Hret & Hl & _ & Hin)]); [congruence|].
  rewrite Hrun in Hret. injection Hret as <- <-.
  split; [by eapply lookup_weaken|]. exists l. split; [assumption|].
  intros b Hb. rewrite List.Forall_forall in Hin. apply Hin, filter_In in Hb as [Hb Hstable].
  split; [assumption|]. by apply stable_spec.
Qed.

Lemma main_selection_targets_are_stable_witness :
  arrays (main_selection 1%positive
            [windows_group [BrowserEntry.mk (str "chrome") undefined]]
            (mkWorld {[ 1%positive := sample_fetched ]} ∅ [])).2 !! 1%positive =
    Some sample_fetched /\
  exists l,
    arrays (main_selection 1%positive
              [windows_group [BrowserEntry.mk (str "chrome") undefined]]
              (mkWorld {[ 1%positive := sample_fetched ]} ∅ [])).2 !! 4%positive = Some l /\
    forall b, In b l ->
      In b sample_fetched /\
      (falsy (Browser.browser_version b) \/ numeric_version (Browser.browser_version b)).
Proof.
  apply (main_selection_targets_are_stable 1%positive
           [windows_group [BrowserEntry.mk (str "chrome") undefined]]
           (mkWorld {[ 1%positive := sample_fetched ]} ∅ []) sample_fetched 4%positive).
  - reflexivity.
  - vm_compute. reflexivity.
Defined.

(** X18.  A list spec that names only versions the catalogue filter
    removes, such as "63.0 beta", is fatal: when a spec of the file lists
    only non-empty strings that are not of the form integer, optionally dot
    integer, [main] ends the process with status 1, whatever was
    fetched. *)
Theorem unstable_versions_are_fatal (a : loc) (aggregatedSpecs : list GroupedBrowserSpec.t)
    (w : world) (fetched : list Browser.t) (spec : BrowserSpec.t) (versions : list string) :
  arrays w !! a = Some fetched ->
  In spec (resolved_specs aggregatedSpecs) ->
  BrowserSpec.browser_version spec = type_list versions ->
  (forall v, In v versions -> v <> EmptyString /\ ~ stable_version_pattern v) ->
  exists out, exits (main_selection a aggregatedSpecs) w 1 out.
Proof.
  intros Ha Hspec Hlist Hversions. unfold exits, main_selection.
  rewrite run_bind, (loadAvailableBrowsers_run _ _ _ Ha).
  set (r1 := fresh (dom (arrays w))). set (w1 := mkWorld _ _ _).
  assert (Hw1 : arrays w1 !! r1 = Some (List.filter stable fetched)) by apply lookup_insert_eq.
  assert (Hunsat : satisfiable (List.filter stable fetched) spec = false).
  { unfold satisfiable. apply andb_false_intro2.
    destruct (selection (List.filter stable fetched) spec) as [|b sel] eqn:Hsel; [reflexivity|].
    exfalso. assert (Hb : In b (selection (List.filter stable fetched) spec))
      by (rewrite Hsel; by left).
    unfold selection, candidates in Hb. rewrite Hlist in Hb.
    apply filter_In in Hb as [Hb Hincl]. apply filter_In in Hb as [Hb _].
    apply filter_In in Hb as [_ Hstable].
    apply includes_spec in Hincl as (v & Hv & Hin).
    destruct (Hversions v Hin) as [Hne Hpat].
    apply stable_spec in Hstable. rewrite Hv in Hstable.
    destruct Hstable as [[|[|]]|(s & [= <-] & Hs)]; congruence. }
  pose proof (getTargetBrowsers_fold r1 aggregatedSpecs w1 _ Hw1) as Hfold. cbv zeta in Hfold.
  destruct (matched_until_failure (List.filter stable fetched) (resolved_specs aggregatedSpecs)).2
    as [failing|] eqn:Hf.
  - destruct Hfold as (w2 & Hrun & Hcon). eauto.
  - pose proof (proj1 (matched_until_failure_None _ _) Hf spec Hspec). congruence.
Qed.

Lemma unstable_versions_are_fatal_witness :
  exists out,
    exits (main_selection 1%positive
             [windows_group [BrowserEntry.mk (str "chrome") (str "63.0 beta,dev")]])
          (mkWorld {[ 1%positive := sample_fetched ]} ∅ []) 1 out.
Proof.
  apply (unstable_versions_are_fatal 1%positive _ _ sample_fetched
           (chrome_spec (str "63.0 beta,dev")) ["63.0 beta"; "dev"]%string).
  - reflexivity.
  - left. reflexivity.
  - reflexivity.
  - intros v [<-|[<-|[]]]; (split; [discriminate|]);
      intros H%exec_stable_version_spec; discriminate H.
Defined.

(** X19.  A spec file without browser entries (no group, or groups whose
    [browsers] lists are empty) is not an error: the call returns an empty
    target list and writes nothing, whatever the catalogue holds; the fatal
    checks are made for each entry, not on the final list. *)
Theorem no_entries_no_targets (a : loc) (aggregatedSpecs : list GroupedBrowserSpec.t)
    (w : world) (catalog : list Browser.t) :
  arrays w !! a = Some catalog ->
  (forall aggregatedSpec, In aggregatedSpec aggregatedSpecs ->
     GroupedBrowserSpec.browsers aggregatedSpec = []) ->
  exists r w',
    getTargetBrowsers a aggregatedSpecs w = (Returned r, w') /\
    arrays w' !! r = Some [] /\ console w' = console w.
Proof.
  intros Ha Hempty.
  assert (Hnone : resolved_specs aggregatedSpecs = []).
  { unfold resolved_specs. induction aggregatedSpecs as [|g gs IH]; [reflexivity|].
    cbn [map List.concat]. unfold resolve_group at 1. rewrite (Hempty g) by (by left).
    apply IH. intros g' Hg'. apply Hempty. by right. }
  pose proof (getTargetBrowsers_fold a aggregatedSpecs w catalog Ha) as Hfold.
  cbv zeta in Hfold. rewrite Hnone in Hfold. cbn in Hfold.
  destruct Hfold as (r & w' & Hrun & Hr & Hcon). exists r, w'.
  by rewrite app_nil_r in Hcon.
Qed.

Lemma no_entries_no_targets_witness :
  exists r w',
    getTargetBrowsers 1%positive [windows_group []; windows_group []] sample_world =
      (Returned r, w') /\
    arrays w' !! r = Some [] /\ console w' = console sample_world.
Proof.
  apply (no_entries_no_targets 1%positive [windows_group []; windows_group []]
           sample_world sample_catalog).
  - reflexivity.
  - intros g [<-|[<-|[]]]; reflexivity.
Defined.
